(** * Taint-model generator specifications

    A shallow embedding of
    [tools/generate_taint_models/generator_specifications.py]: three
    [typing.NamedTuple] classes.  The file declares no function of its
    own; everything observable about it is the behaviour Python gives to
    a [NamedTuple] class: keyword/positional construction with defaults,
    attribute and index access, tuple equality, and the rejection of
    attribute assignment.  Those rules are modelled once, for an
    arbitrary class description, and the three classes are then written
    down field by field as the source has them. *)

From stdpp Require Import gmap strings list fin_maps.
From Stdlib Require Import ZArith.

(** ** Python values that can sit in a field *)

(** The annotations used by the source: [str], [Set[...]], [Optional[...]]. *)
Inductive ty :=
| TStr
| TSet (t : ty)
| TOptional (t : ty).

(** Set objects are mutable and live in the store; a field holds a
    reference to one. *)
Definition loc := positive.

Inductive value :=
| VNone
| VStr (s : string)
| VSet (l : loc).

#[global] Instance value_eq_dec : EqDecision value.
Proof. solve_decision. Defined.

(** ** Exceptions *)

Inductive type_error :=
| UnexpectedKeyword (k : string)
| MultipleValues (k : string)
| TooManyPositional
| MissingArguments (names : list string)
| WrongArity
| NoItemAssignment
| NoItemDeletion
| NotAClass
| ImmutableType
| CannotDeleteClass.

Inductive exn :=
| TypeError (e : type_error)
| AttributeError
| IndexError
| ValueError
| NameError.

Inductive result (A : Type) :=
| Ok (a : A)
| Err (e : exn).
Arguments Ok {A} a.
Arguments Err {A} e.

Definition rbind {A B} (r : result A) (k : A → result B) : result B :=
  match r with
  | Ok a => k a
  | Err e => Err e
  end.

Notation "'try' x '<~' r 'in' k" := (rbind r (λ x, k))
  (at level 10, x name, r at level 100, k at level 200, only parsing).

Definition is_ok {A} (r : result A) : bool :=
  match r with Ok _ => true | Err _ => false end.

(** ** Class descriptions *)

(** One line of a [NamedTuple] class body: [name: annotation] or
    [name: annotation = default]. *)
Record field := Field {
  f_name : string;
  f_type : ty;
  f_default : option value
}.

Record namedtuple_class := NamedTuple {
  cls_name : string;
  cls_fields : list field
}.

(** A tuple object.  [inst_cls] is [None] for a plain [tuple]. *)
Record instance := Instance {
  inst_cls : option namedtuple_class;
  inst_items : list value
}.

Definition field_names (cls : namedtuple_class) : list string :=
  f_name <$> cls_fields cls.

Fixpoint index_of (k : string) (names : list string) : option nat :=
  match names with
  | [] => None
  | n :: rest => if String.eqb k n then Some 0 else S <$> index_of k rest
  end.

Definition field_index (cls : namedtuple_class) (k : string) : option nat :=
  index_of k (field_names cls).

(** ** The three classes of the source *)

Module Spec.

(** [class AnnotationSpecification(NamedTuple)] *)
Definition AnnotationSpecification : namedtuple_class :=
  NamedTuple "AnnotationSpecification"
    [ Field "arg" (TOptional TStr) (Some VNone);
      Field "vararg" (TOptional TStr) (Some VNone);
      Field "kwarg" (TOptional TStr) (Some VNone);
      Field "returns" (TOptional TStr) (Some VNone) ].

(** [class WhitelistSpecification(NamedTuple)] *)
Definition WhitelistSpecification : namedtuple_class :=
  NamedTuple "WhitelistSpecification"
    [ Field "parameter_type" (TOptional (TSet TStr)) (Some VNone);
      Field "parameter_name" (TOptional (TSet TStr)) (Some VNone) ].

(** [class DecoratorAnnotationSpecification(NamedTuple)] *)
Definition DecoratorAnnotationSpecification : namedtuple_class :=
  NamedTuple "DecoratorAnnotationSpecification"
    [ Field "decorator" TStr None;
      Field "arg_annotation" (TOptional TStr) (Some VNone);
      Field "vararg_annotation" (TOptional TStr) (Some VNone);
      Field "kwarg_annotation" (TOptional TStr) (Some VNone);
      Field "return_annotation" (TOptional TStr) (Some VNone);
      Field "parameter_type_whitelist" (TOptional (TSet TStr)) (Some VNone);
      Field "parameter_name_whitelist" (TOptional (TSet TStr)) (Some VNone) ].

Definition classes : list namedtuple_class :=
  [ AnnotationSpecification; WhitelistSpecification;
    DecoratorAnnotationSpecification ].

End Spec.

(** ** Construction: the generated [__new__]

    Argument binding follows the interpreter's order: positional
    arguments fill the leading parameters, each keyword is then matched
    against the parameter names (an unknown name or an already filled
    parameter is a [TypeError]), surplus positional arguments are
    reported, and finally the parameters still empty take their default
    or are reported missing.

    The parameters of the generated [__new__] are the class itself,
    under the name [_cls], followed by the fields.  The call always
    binds [_cls], so a keyword of that name finds its parameter
    filled. *)

Abbreviation slots := (list (option value)).

Definition bind_positional (n : nat) (args : list value) : slots :=
  resize n None (Some <$> args).

Definition bind_keyword (cls : namedtuple_class) (sl : slots)
    (kv : string * value) : result slots :=
  if String.eqb kv.1 "_cls" then Err (TypeError (MultipleValues "_cls"))
  else
    match field_index cls kv.1 with
    | None => Err (TypeError (UnexpectedKeyword kv.1))
    | Some i =>
        match sl !! i with
        | Some None => Ok (<[i := Some kv.2]> sl)
        | _ => Err (TypeError (MultipleValues kv.1))
        end
    end.

Fixpoint bind_keywords (cls : namedtuple_class) (sl : slots)
    (kwargs : list (string * value)) : result slots :=
  match kwargs with
  | [] => Ok sl
  | kv :: rest =>
      try sl' <~ bind_keyword cls sl kv in
      bind_keywords cls sl' rest
  end.

Definition fill (f : field) (s : option value) : option value :=
  match s with
  | Some v => Some v
  | None => f_default f
  end.

Fixpoint missing (fs : list field) (sl : slots) : list string :=
  match fs, sl with
  | f :: fs', s :: sl' =>
      match fill f s with
      | Some _ => missing fs' sl'
      | None => f_name f :: missing fs' sl'
      end
  | _, _ => []
  end.

Definition fill_defaults (fs : list field) (sl : slots) : result (list value) :=
  match missing fs sl with
  | [] => Ok (zip_with (λ f s, default VNone (fill f s)) fs sl)
  | names => Err (TypeError (MissingArguments names))
  end.

Definition construct (cls : namedtuple_class) (args : list value)
    (kwargs : list (string * value)) : result instance :=
  let fs := cls_fields cls in
  try sl <~ bind_keywords cls (bind_positional (length fs) args) kwargs in
  if decide (length fs < length args) then Err (TypeError TooManyPositional)
  else
    try items <~ fill_defaults fs sl in
    Ok (Instance (Some cls) items).

(** ** Reading an instance *)

(** [o.name] for the data fields of the class.  The attributes every
    tuple inherits ([count], [index], [__class__], ...) and the helper
    methods of a [NamedTuple] are not read through this function;
    [_replace] and [_asdict] are given as functions of their own. *)
Definition getattr (o : instance) (name : string) : result value :=
  match inst_cls o with
  | None => Err AttributeError
  | Some cls =>
      match field_index cls name with
      | None => Err AttributeError
      | Some i =>
          match inst_items o !! i with
          | Some v => Ok v
          | None => Err IndexError
          end
      end
  end.

(** [o[i]], with Python's negative indices. *)
Definition getitem (o : instance) (i : Z) : result value :=
  let n := Z.of_nat (length (inst_items o)) in
  let j := if (i <? 0)%Z then (i + n)%Z else i in
  if ((0 <=? j) && (j <? n))%Z then
    match inst_items o !! Z.to_nat j with
    | Some v => Ok v
    | None => Err IndexError
    end
  else Err IndexError.

(** Keyword lookup in an argument list. *)
Fixpoint kw_lookup (k : string) (kwargs : list (string * value)) : option value :=
  match kwargs with
  | [] => None
  | (k', v) :: rest => if String.eqb k k' then Some v else kw_lookup k rest
  end.

(** ** The store: mutable sets and allocated tuple objects *)

Record store := Store {
  sets : gmap loc (gset string);
  objs : gmap loc instance
}.

Definition empty_store : store := Store ∅ ∅.

Definition alloc_set (s : gset string) (st : store) : loc * store :=
  let l := fresh (dom (sets st)) in
  (l, Store (<[l := s]> (sets st)) (objs st)).

Definition alloc_obj (o : instance) (st : store) : loc * store :=
  let l := fresh (dom (objs st)) in
  (l, Store (sets st) (<[l := o]> (objs st))).

(** ** Equality *)

(** [a == b] on field values: the identity shortcut first (which for
    [None] and strings is equality of the value), then, for two set
    objects, equality of their contents. *)
Definition py_eq (st : store) (a b : value) : bool :=
  if decide (a = b) then true
  else
    match a, b with
    | VSet l1, VSet l2 =>
        match sets st !! l1, sets st !! l2 with
        | Some s1, Some s2 => bool_decide (s1 = s2)
        | _, _ => false
        end
    | _, _ => false
    end.

(** [tuple.__eq__]: same length and pairwise equal items.  A
    [NamedTuple] class does not override it, so the class plays no
    part. *)
Fixpoint items_eq (st : store) (xs ys : list value) : bool :=
  match xs, ys with
  | [], [] => true
  | x :: xs', y :: ys' => py_eq st x y && items_eq st xs' ys'
  | _, _ => false
  end.

Definition tuple_eq (st : store) (a b : instance) : bool :=
  items_eq st (inst_items a) (inst_items b).

(** What a field value stands for once references are followed. *)
Inductive dvalue :=
| DNone
| DStr (s : string)
| DSet (s : gset string).

Definition denote (st : store) (v : value) : option dvalue :=
  match v with
  | VNone => Some DNone
  | VStr s => Some (DStr s)
  | VSet l => DSet <$> sets st !! l
  end.

Definition read_field (st : store) (o : instance) (name : string) : option dvalue :=
  match getattr o name with
  | Ok v => denote st v
  | Err _ => None
  end.

Definition instance_of (cls : namedtuple_class) (o : instance) : Prop :=
  inst_cls o = Some cls ∧ length (inst_items o) = length (cls_fields cls).

(** ** Operations a program can apply to the objects *)

(** What can stand on the right of an attribute assignment: a field
    value, or a class object, [None] being the built-in [tuple]. *)
Inductive rhs :=
| RValue (v : value)
| RClass (c : option namedtuple_class).

(** [setattr(o, name, v)].

    [__class__] is the one attribute with a setter.  It refuses
    anything that is not a class, and it refuses the built-in [tuple] on
    either side (as the present or as the new class); between two
    [NamedTuple] classes, which share the layout of [tuple] and add no
    slots, the assignment goes through: the object keeps its items and
    changes class.

    Any other name is refused: a field name resolves to a read-only
    descriptor of the class, and a name that is no field has nowhere to
    go because the class has [__slots__ = ()]; a plain tuple has no
    settable attribute either. *)
Definition setattr (o : instance) (name : string) (v : rhs) : result instance :=
  if String.eqb name "__class__" then
    match v with
    | RValue _ => Err (TypeError NotAClass)
    | RClass target =>
        match inst_cls o, target with
        | Some _, Some cls' => Ok (Instance (Some cls') (inst_items o))
        | _, _ => Err (TypeError ImmutableType)
        end
    end
  else
    match inst_cls o with
    | None => Err AttributeError
    | Some cls =>
        match field_index cls name with
        | Some _ => Err AttributeError
        | None => Err AttributeError
        end
    end.

(** [delattr(o, name)]: [__class__] cannot be deleted; nothing else
    can either, for the reasons given for assignment. *)
Definition delattr (o : instance) (name : string) : result instance :=
  if String.eqb name "__class__" then Err (TypeError CannotDeleteClass)
  else
    match inst_cls o with
    | None => Err AttributeError
    | Some cls =>
        match field_index cls name with
        | Some _ => Err AttributeError
        | None => Err AttributeError
        end
    end.

(** [o[i] = v] and [del o[i]]: tuples have neither. *)
Definition setitem (o : instance) (i : Z) (v : value) : result instance :=
  Err (TypeError NoItemAssignment).

Definition delitem (o : instance) (i : Z) : result instance :=
  Err (TypeError NoItemDeletion).

Fixpoint first_duplicate (ks : list string) : option string :=
  match ks with
  | [] => None
  | k :: rest =>
      match index_of k rest with
      | Some _ => Some k
      | None => first_duplicate rest
      end
  end.

Fixpoint first_unknown (names ks : list string) : option string :=
  match ks with
  | [] => None
  | k :: rest =>
      match index_of k names with
      | Some _ => first_unknown names rest
      | None => Some k
      end
  end.

(** [o._replace] with keyword arguments: a new tuple of the same class; [o] itself
    is only read. *)
Definition replace (o : instance) (kwargs : list (string * value)) : result instance :=
  match inst_cls o with
  | None => Err AttributeError
  | Some cls =>
      match first_duplicate kwargs.*1 with
      | Some k => Err (TypeError (MultipleValues k))
      | None =>
          match first_unknown (field_names cls) kwargs.*1 with
          | Some _ => Err ValueError
          | None =>
              let items :=
                zip_with (λ name old, default old (kw_lookup name kwargs))
                  (field_names cls) (inst_items o) in
              if decide (length items = length (cls_fields cls))
              then Ok (Instance (Some cls) items)
              else Err (TypeError WrongArity)
          end
      end
  end.

Inductive op :=
| NewSet (xs : list string)
| New (cls : namedtuple_class) (args : list value) (kwargs : list (string * value))
| SetAttr (o : loc) (name : string) (v : rhs)
| DelAttr (o : loc) (name : string)
| SetItem (o : loc) (i : Z) (v : value)
| DelItem (o : loc) (i : Z)
| Replace (o : loc) (kwargs : list (string * value))
| SetAdd (s : loc) (x : string)
| SetDiscard (s : loc) (x : string)
| SetClear (s : loc).

(** Apply an in-place update to the tuple object at [o]: whatever the
    update returns is written back. *)
Definition update_obj (o : loc) (f : instance → result instance) (st : store) : result store :=
  match objs st !! o with
  | None => Err NameError
  | Some inst =>
      try inst' <~ f inst in
      Ok (Store (sets st) (<[o := inst']> (objs st)))
  end.

Definition update_set (s : loc) (f : gset string → gset string) (st : store) : result store :=
  match sets st !! s with
  | None => Err NameError
  | Some xs => Ok (Store (<[s := f xs]> (sets st)) (objs st))
  end.

(** One operation.  An [Err] is a raised exception; the store is then
    as it was. *)
Definition exec (c : op) (st : store) : result store :=
  match c with
  | NewSet xs => Ok (alloc_set (list_to_set xs) st).2
  | New cls args kwargs =>
      try o <~ construct cls args kwargs in
      Ok (alloc_obj o st).2
  | SetAttr o name v => update_obj o (λ inst, setattr inst name v) st
  | DelAttr o name => update_obj o (λ inst, delattr inst name) st
  | SetItem o i v => update_obj o (λ inst, setitem inst i v) st
  | DelItem o i => update_obj o (λ inst, delitem inst i) st
  | Replace o kwargs =>
      match objs st !! o with
      | None => Err NameError
      | Some inst =>
          try inst' <~ replace inst kwargs in
          Ok (alloc_obj inst' st).2
      end
  | SetAdd s x => update_set s (λ xs, {[x]} ∪ xs) st
  | SetDiscard s x => update_set s (λ xs, xs ∖ {[x]}) st
  | SetClear s => update_set s (λ _, ∅) st
  end.





(** [o._asdict()]: the field names paired with the items, in
    declaration order. *)
Definition asdict (o : instance) : result (list (string * value)) :=
  match inst_cls o with
  | None => Err AttributeError
  | Some cls => Ok (zip (field_names cls) (inst_items o))
  end.

(** The fields of a class annotated with a set type. *)
Definition is_set_type (t : ty) : bool :=
  match t with
  | TSet _ | TOptional (TSet _) => true
  | _ => false
  end.

Definition set_fields (cls : namedtuple_class) : list string :=
  f_name <$> List.filter (λ f, is_set_type (f_type f)) (cls_fields cls).

(** Keyword arguments for a call in which each field is either
    supplied or left out. *)
Definition keywords (choices : list (string * option value)) : list (string * value) :=
  omap (λ c, pair c.1 <$> c.2) choices.

(** ** The consumer of the records

    The generator that looks specifications up and applies them is not
    in this file; the rules below are the ones the specification
    document ascribes to it. *)

Module Consumer.

(** Modelled from the spec: the consumer's test that a name is present
    in a whitelist "when that set is set" (the generator performing it
    is outside the source file). *)
Definition present (st : store) (x : string) (w : value) : bool :=
  match w with
  | VSet l =>
      match sets st !! l with
      | Some s => bool_decide (x ∈ s)
      | None => false
      end
  | _ => false
  end.

(** Modelled from the spec: the exemption rule of the generator, which
    is outside the source file: exempt by type or by name. *)
Definition exempt (st : store) (ptype pname : string)
    (type_whitelist name_whitelist : value) : bool :=
  present st ptype type_whitelist || present st pname name_whitelist.

(** Modelled from the spec: the exemption rule read off a
    [WhitelistSpecification]; the generator doing so is outside the
    source file. *)
Definition whitelist_exempt (st : store) (ptype pname : string) (w : instance) : bool :=
  match getattr w "parameter_type", getattr w "parameter_name" with
  | Ok t, Ok n => exempt st ptype pname t n
  | _, _ => false
  end.

(** Modelled from the spec: the same rule on the whitelist fields held
    inline by a [DecoratorAnnotationSpecification]; the generator is
    outside the source file. *)
Definition decorator_exempt (st : store) (ptype pname : string) (d : instance) : bool :=
  match getattr d "parameter_type_whitelist", getattr d "parameter_name_whitelist" with
  | Ok t, Ok n => exempt st ptype pname t n
  | _, _ => false
  end.

(** Modelled from the spec: the lookup of the generator (outside the
    source file): an entry is selected when its [decorator] textually
    matches one of the callable's decorator names. *)
Definition matches (decorators : list string) (d : instance) : bool :=
  match getattr d "decorator" with
  | Ok (VStr s) => bool_decide (s ∈ decorators)
  | _ => false
  end.

(** Modelled from the spec: the generator (outside the source file)
    iterates the known specifications and keeps the matching ones. *)
Definition select (table : list instance) (decorators : list string) : list instance :=
  List.filter (matches decorators) table.

(** Modelled from the spec: what the generator (outside the source
    file) attaches to an ordinary parameter: nothing when the parameter
    is exempt or [arg_annotation] is unset. *)
Definition parameter_annotation (st : store) (d : instance)
    (ptype pname : string) : option string :=
  if decorator_exempt st ptype pname d then None
  else
    match getattr d "arg_annotation" with
    | Ok (VStr a) => Some a
    | _ => None
    end.

(** Modelled from the spec: what the generator (outside the source
    file) attaches to the return value. *)
Definition return_annotation (d : instance) : option string :=
  match getattr d "return_annotation" with
  | Ok (VStr a) => Some a
  | _ => None
  end.

End Consumer.

(** * Properties *)

Example construct_staticmethod :
  construct Spec.DecoratorAnnotationSpecification []
    [("decorator", VStr "staticmethod")]
  = Ok (Instance (Some Spec.DecoratorAnnotationSpecification)
          [VStr "staticmethod"; VNone; VNone; VNone; VNone; VNone; VNone]).
Proof. reflexivity. Qed.

Example construct_missing_decorator :
  construct Spec.DecoratorAnnotationSpecification [] [("arg_annotation", VStr "T")]
  = Err (TypeError (MissingArguments ["decorator"])).
Proof. reflexivity. Qed.

Example construct_positional :
  construct Spec.WhitelistSpecification [VSet 1%positive] [("parameter_type", VNone)]
  = Err (TypeError (MultipleValues "parameter_type")).
Proof. reflexivity. Qed.

(** ** Field lookup by name *)

Lemma index_of_Some k names i :
  index_of k names = Some i → names !! i = Some k.
Proof.
  revert i. induction names as [|n rest IH]; intros i; simpl; [done|].
  destruct (String.eqb_spec k n) as [->|Hne].
  - by intros [= <-].
  - destruct (index_of k rest) as [j|]; simpl; [|done].
    intros [= <-]. simpl. by apply IH.
Qed.

Lemma index_of_None k names :
  index_of k names = None ↔ k ∉ names.
Proof.
  induction names as [|n rest IH]; simpl.
  - split; [intros _; apply not_elem_of_nil | done].
  - rewrite not_elem_of_cons. destruct (String.eqb_spec k n) as [->|Hne].
    + split; [done | by intros [? _]].
    + destruct (index_of k rest) as [j|]; simpl.
      * split; [done|]. intros [_ H]. by apply IH in H.
      * split; [|done]. intros _. split; [done | by apply IH].
Qed.

Lemma index_of_elem k names :
  k ∈ names → ∃ i, index_of k names = Some i.
Proof.
  intros Hin. destruct (index_of k names) as [i|] eqn:E; [by exists i|].
  by apply index_of_None in E.
Qed.

Lemma index_of_lookup k names i :
  NoDup names → names !! i = Some k → index_of k names = Some i.
Proof.
  intros Hnd Hi.
  destruct (index_of_elem k names) as [j Hj].
  { by eapply list_elem_of_lookup_2. }
  apply index_of_Some in Hj as Hj'.
  by rewrite (NoDup_lookup _ _ _ _ Hnd Hi Hj').
Qed.

Lemma index_of_inj k k' names i :
  index_of k names = Some i → index_of k' names = Some i → k = k'.
Proof.
  intros H1%index_of_Some H2%index_of_Some. congruence.
Qed.

Lemma kw_lookup_None k kwargs :
  kw_lookup k kwargs = None ↔ k ∉ kwargs.*1.
Proof.
  induction kwargs as [|[k' v] rest IH]; simpl.
  - split; [intros _; apply not_elem_of_nil | done].
  - rewrite not_elem_of_cons. destruct (String.eqb_spec k k') as [->|Hne].
    + split; [done | by intros [? _]].
    + rewrite IH. tauto.
Qed.

(** ** Binding keyword arguments *)

Section binding.
Variable cls : namedtuple_class.

Lemma bind_keyword_Ok sl kv sl' :
  bind_keyword cls sl kv = Ok sl' →
  ∃ i, field_index cls kv.1 = Some i ∧ sl !! i = Some None ∧
       sl' = <[i := Some kv.2]> sl.
Proof.
  unfold bind_keyword. destruct (String.eqb kv.1 "_cls"); [done|].
  destruct (field_index cls kv.1) as [i|]; [|done].
  destruct (sl !! i) as [[v|]|] eqn:E; try done.
  intros [= <-]. by exists i.
Qed.

(** What a successful binding leaves in the slots: a keyword that was
    given fills its own slot, which was empty before; every other
    slot is untouched. *)
Lemma bind_keywords_Ok kwargs : ∀ sl sl',
  bind_keywords cls sl kwargs = Ok sl' →
  length sl' = length sl ∧
  ∀ k i, field_index cls k = Some i →
    (is_Some (kw_lookup k kwargs) → sl !! i = Some None) ∧
    sl' !! i = match kw_lookup k kwargs with
               | Some v => Some (Some v)
               | None => sl !! i
               end.
Proof.
  induction kwargs as [|[k0 v0] rest IH]; intros sl sl'; simpl.
  - intros [= <-]. split; [done|]. intros k i _. split; [by intros [? ?]|done].
  - destruct (bind_keyword cls sl (k0, v0)) as [sl1|] eqn:E1; simpl; [|done].
    apply bind_keyword_Ok in E1 as (j & Hj & Hslj & ->). simpl in *.
    intros Hrest. apply IH in Hrest as [Hlen Hslots].
    rewrite length_insert in Hlen. split; [done|].
    intros k i Hi. destruct (Hslots k i Hi) as [Hempty Hfinal].
    destruct (String.eqb_spec k k0) as [->|Hne].
    + assert (i = j) as -> by congruence.
      split; [done|]. rewrite Hfinal.
      destruct (kw_lookup k0 rest) as [v|] eqn:Ek.
      * exfalso. specialize (Hempty (ltac:(eauto))).
        rewrite list_lookup_insert_eq in Hempty; [done|].
        by eapply lookup_lt_Some.
      * rewrite list_lookup_insert_eq; [done|]. by eapply lookup_lt_Some.
    + assert (i ≠ j) as Hij.
      { intros ->. apply Hne. by eapply index_of_inj. }
      rewrite list_lookup_insert_ne in Hempty, Hfinal by done.
      by split.
Qed.

(** When binding succeeds. *)
Lemma bind_keywords_succeeds kwargs : ∀ sl,
  field_index cls "_cls" = None →
  NoDup kwargs.*1 →
  (∀ k, k ∈ kwargs.*1 → ∃ i, field_index cls k = Some i ∧ sl !! i = Some None) →
  ∃ sl', bind_keywords cls sl kwargs = Ok sl'.
Proof.
  induction kwargs as [|[k0 v0] rest IH]; intros sl Hcls Hnd Hfree; simpl.
  - by exists sl.
  - apply NoDup_cons in Hnd as [Hfresh Hnd].
    destruct (Hfree k0) as (j & Hj & Hslj); [simpl; apply list_elem_of_here|].
    unfold bind_keyword. simpl.
    destruct (String.eqb_spec k0 "_cls") as [->|_]; [congruence|].
    rewrite Hj, Hslj. simpl.
    apply IH; [done|done|]. intros k Hk.
    destruct (Hfree k) as (i & Hi & Hsli); [simpl; by apply list_elem_of_further|].
    exists i. split; [done|].
    rewrite list_lookup_insert_ne; [done|].
    intros ->. apply Hfresh.
    by rewrite (index_of_inj _ _ _ _ Hj Hi).
Qed.

Lemma bind_keywords_Err kwargs : ∀ sl e,
  bind_keywords cls sl kwargs = Err e →
  ∃ k, k ∈ kwargs.*1 ∧
    (e = TypeError (UnexpectedKeyword k) ∨ e = TypeError (MultipleValues k)).
Proof.
  induction kwargs as [|[k0 v0] rest IH]; intros sl e; simpl; [done|].
  destruct (bind_keyword cls sl (k0, v0)) as [sl1|e1] eqn:E1; simpl.
  - intros (k & Hk & He)%IH. exists k. split; [by apply list_elem_of_further|done].
  - intros [= <-]. exists k0. split; [apply list_elem_of_here|].
    unfold bind_keyword in E1. simpl in E1.
    destruct (String.eqb_spec k0 "_cls") as [->|_]; [right; congruence|].
    destruct (field_index cls k0) as [i|]; [|left; congruence].
    destruct (sl !! i) as [[v|]|]; try done; right; congruence.
Qed.
End binding.

(** ** Filling in defaults *)

Lemma missing_nil fs : ∀ sl,
  missing fs sl = [] ↔
  ∀ i f s, fs !! i = Some f → sl !! i = Some s → is_Some (fill f s).
Proof.
  induction fs as [|f fs IH]; intros sl; simpl.
  - split; [|done]. intros _ i f s H. by rewrite lookup_nil in H.
  - destruct sl as [|s sl].
    { split; [|done]. intros _ i f' s' _ H. by rewrite lookup_nil in H. }
    destruct (fill f s) as [v|] eqn:E.
    + rewrite IH. split.
      * intros H [|i] f' s'; simpl; [intros [= <-] [= <-]; by rewrite E|].
        apply H.
      * intros H i f' s'. apply (H (S i)).
    + split; [done|]. intros H.
      destruct (H 0 f s eq_refl eq_refl) as [v Hv]. congruence.
Qed.

Lemma fill_defaults_Ok fs sl items :
  fill_defaults fs sl = Ok items →
  missing fs sl = [] ∧
  items = zip_with (λ f s, default VNone (fill f s)) fs sl.
Proof.
  unfold fill_defaults. destruct (missing fs sl); [|done].
  by intros [= <-].
Qed.

Lemma bind_positional_lookup n args i :
  i < n →
  bind_positional n args !! i = Some (args !! i).
Proof.
  intros Hi. unfold bind_positional.
  destruct (decide (i < length args)) as [Hlt|Hge].
  - rewrite lookup_resize by (rewrite ?length_fmap; lia).
    rewrite list_lookup_fmap.
    destruct (lookup_lt_is_Some_2 args i Hlt) as [a ->]. done.
  - rewrite lookup_resize_new by (rewrite ?length_fmap; lia).
    by rewrite lookup_ge_None_2 by lia.
Qed.

(** ** Construction, taken apart *)

Section construction.
Variable cls : namedtuple_class.

Lemma field_index_lt k i :
  field_index cls k = Some i → i < length (cls_fields cls).
Proof.
  intros H%index_of_Some. apply lookup_lt_Some in H.
  unfold field_names in H. by rewrite length_fmap in H.
Qed.

Lemma field_index_field k i :
  field_index cls k = Some i → ∃ f, cls_fields cls !! i = Some f ∧ f_name f = k.
Proof.
  intros H%index_of_Some. unfold field_names in H.
  rewrite list_lookup_fmap in H.
  destruct (cls_fields cls !! i) as [f|] eqn:E; [|done].
  exists f. split; [done|]. by injection H.
Qed.

Lemma field_index_of_field i f :
  NoDup (field_names cls) → cls_fields cls !! i = Some f →
  field_index cls (f_name f) = Some i.
Proof.
  intros Hnd Hf. apply index_of_lookup; [done|].
  unfold field_names. rewrite list_lookup_fmap. by rewrite Hf.
Qed.

Lemma construct_Ok args kwargs o :
  construct cls args kwargs = Ok o →
  ∃ sl,
    bind_keywords cls (bind_positional (length (cls_fields cls)) args) kwargs = Ok sl ∧
    length args ≤ length (cls_fields cls) ∧
    length sl = length (cls_fields cls) ∧
    missing (cls_fields cls) sl = [] ∧
    o = Instance (Some cls) (zip_with (λ f s, default VNone (fill f s)) (cls_fields cls) sl).
Proof.
  unfold construct.
  destruct (bind_keywords cls _ kwargs) as [sl|] eqn:E; simpl; [|done].
  destruct (decide (length (cls_fields cls) < length args)); [done|].
  destruct (fill_defaults (cls_fields cls) sl) as [items|] eqn:F; simpl; [|done].
  intros [= <-]. apply fill_defaults_Ok in F as [Hm ->].
  exists sl. split_and!; try done; [lia|].
  apply bind_keywords_Ok in E as [-> _].
  unfold bind_positional. by rewrite length_resize.
Qed.

Lemma construct_instance_of args kwargs o :
  construct cls args kwargs = Ok o → instance_of cls o.
Proof.
  intros (sl & _ & _ & Hlen & _ & ->)%construct_Ok.
  split; [done|]. simpl. rewrite length_zip_with. lia.
Qed.

(** Every field of a constructed instance, whichever way the
    arguments were passed: the keyword if one was given, else the
    positional argument at the field's index, else the default. *)
Lemma construct_getattr args kwargs o k i :
  construct cls args kwargs = Ok o →
  field_index cls k = Some i →
  ∃ f, cls_fields cls !! i = Some f ∧ f_name f = k ∧
    inst_items o !! i =
      Some (match kw_lookup k kwargs with
            | Some v => v
            | None =>
                match args !! i with
                | Some a => a
                | None => default VNone (f_default f)
                end
            end) ∧
    getattr o k = Ok (match kw_lookup k kwargs with
                      | Some v => v
                      | None =>
                          match args !! i with
                          | Some a => a
                          | None => default VNone (f_default f)
                          end
                      end).
Proof.
  intros (sl & Hb & _ & _ & _ & ->)%construct_Ok Hi.
  destruct (field_index_field _ _ Hi) as (f & Hf & Hname).
  exists f. split; [done|]. split; [done|].
  apply bind_keywords_Ok in Hb as [_ Hslots].
  destruct (Hslots k i Hi) as [_ Hsl].
  rewrite bind_positional_lookup in Hsl by (by eapply field_index_lt).
  assert (zip_with (λ f s, default VNone (fill f s)) (cls_fields cls) sl !! i =
          Some (match kw_lookup k kwargs with
                | Some v => v
                | None => match args !! i with
                          | Some a => a
                          | None => default VNone (f_default f)
                          end
                end)) as Hitem.
  { rewrite lookup_zip_with, Hf, Hsl. simpl.
    destruct (kw_lookup k kwargs); [done|]. by destruct (args !! i). }
  split; [done|].
  unfold getattr. simpl. by rewrite Hi, Hitem.
Qed.

(** When construction succeeds. *)
Lemma construct_succeeds args kwargs :
  field_index cls "_cls" = None →
  NoDup (field_names cls) →
  length args ≤ length (cls_fields cls) →
  NoDup kwargs.*1 →
  (∀ k, k ∈ kwargs.*1 → ∃ i, field_index cls k = Some i ∧ length args ≤ i) →
  (∀ i f, cls_fields cls !! i = Some f → f_default f = None →
     i < length args ∨ f_name f ∈ kwargs.*1) →
  ∃ o, construct cls args kwargs = Ok o.
Proof.
  intros Hfree Hnames Hlen Hnd Hkeys Hreq.
  destruct (bind_keywords_succeeds cls kwargs
              (bind_positional (length (cls_fields cls)) args) Hfree Hnd) as [sl Hsl].
  { intros k Hk. destruct (Hkeys k Hk) as (i & Hi & Hge).
    exists i. split; [done|].
    rewrite bind_positional_lookup by (by eapply field_index_lt).
    by rewrite lookup_ge_None_2. }
  unfold construct. rewrite Hsl. simpl.
  destruct (decide (length (cls_fields cls) < length args)); [lia|].
  assert (missing (cls_fields cls) sl = []) as Hm.
  { apply missing_nil. intros i f s Hf Hs.
    pose proof (field_index_of_field i f Hnames Hf) as Hi.
    apply bind_keywords_Ok in Hsl as [_ Hslots].
    destruct (Hslots _ i Hi) as [_ Hfinal].
    rewrite bind_positional_lookup in Hfinal by (by eapply lookup_lt_Some).
    rewrite Hs in Hfinal.
    destruct (kw_lookup (f_name f) kwargs) as [v|] eqn:Ek.
    { injection Hfinal as ->. by eexists. }
    injection Hfinal as ->.
    destruct (args !! i) as [a|] eqn:Ea; [by eexists|]. simpl.
    destruct (f_default f) as [d|] eqn:Ed; [by eexists|].
    destruct (Hreq i f Hf Ed) as [Hlt|Hin].
    - apply lookup_ge_None in Ea. lia.
    - by apply kw_lookup_None in Ek. }
  unfold fill_defaults. rewrite Hm. simpl. by eexists.
Qed.
End construction.

Lemma kw_lookup_elem k v kwargs :
  NoDup kwargs.*1 → (k, v) ∈ kwargs → kw_lookup k kwargs = Some v.
Proof.
  induction kwargs as [|[k' v'] rest IH]; simpl.
  - intros _ H. by apply elem_of_nil in H.
  - intros [Hfresh Hnd]%NoDup_cons [Heq|Hin]%elem_of_cons.
    + injection Heq as <- <-. by rewrite String.eqb_refl.
    + destruct (String.eqb_spec k k') as [->|Hne]; [|by apply IH].
      exfalso. apply Hfresh. apply list_elem_of_fmap. by exists (k', v).
Qed.

(** ** The classes of the source are well formed *)

Lemma classes_cases (P : namedtuple_class → Prop) :
  P Spec.AnnotationSpecification →
  P Spec.WhitelistSpecification →
  P Spec.DecoratorAnnotationSpecification →
  ∀ cls, cls ∈ Spec.classes → P cls.
Proof.
  intros H1 H2 H3 cls Hin. unfold Spec.classes in Hin.
  repeat (apply elem_of_cons in Hin as [->|Hin]; [done|]).
  by apply elem_of_nil in Hin.
Qed.

(** No field is called [_cls]. *)
Lemma classes_cls_free cls :
  cls ∈ Spec.classes → field_index cls "_cls" = None.
Proof.
  revert cls. by apply classes_cases.
Qed.

Lemma classes_NoDup cls :
  cls ∈ Spec.classes → NoDup (field_names cls).
Proof.
  revert cls. apply classes_cases; compute_done.
Qed.

(** An optional field defaults to [None]; only [decorator] has no
    default. *)
Lemma classes_defaults cls f :
  cls ∈ Spec.classes → f ∈ cls_fields cls →
  f_default f = Some VNone ∨
  (cls = Spec.DecoratorAnnotationSpecification ∧ f_name f = "decorator" ∧
   f_default f = None).
Proof.
  intros Hcls. revert f. pattern cls. revert cls Hcls.
  apply classes_cases; intros f Hf; simpl in Hf;
    repeat (apply elem_of_cons in Hf as [->|Hf]; [auto|]);
    by apply elem_of_nil in Hf.
Qed.

(** ** Equality of field values and of tuples *)

Lemma py_eq_refl st v : py_eq st v v = true.
Proof. unfold py_eq. by rewrite decide_True. Qed.

Lemma py_eq_denote st a b da db :
  denote st a = Some da → denote st b = Some db →
  py_eq st a b = true ↔ da = db.
Proof.
  intros Ha Hb. unfold py_eq.
  destruct (decide (a = b)) as [->|Hne]; [split; [congruence|done]|].
  destruct a as [|s1|l1], b as [|s2|l2]; simpl in Ha, Hb; simpl;
    repeat match goal with
           | H : context [sets st !! ?l] |- _ => destruct (sets st !! l)
           end;
    simpl in Ha, Hb; rewrite ?bool_decide_eq_true;
    split; intros; congruence.
Qed.

Lemma items_eq_spec st xs : ∀ ys,
  items_eq st xs ys = true ↔
  length xs = length ys ∧
  ∀ i x y, xs !! i = Some x → ys !! i = Some y → py_eq st x y = true.
Proof.
  induction xs as [|x xs IH]; intros [|y ys]; simpl.
  - split; [|done]. intros _. split; [done|]. intros i ? ? H.
    by rewrite lookup_nil in H.
  - split; [done|]. by intros [? _].
  - split; [done|]. by intros [? _].
  - rewrite andb_true_iff, IH. split.
    + intros (Hxy & Hlen & Hrest). split; [by f_equal|].
      intros [|i] x' y'; simpl; [by intros [= <-] [= <-]|]. apply Hrest.
    + intros [Hlen Hall]. split_and!.
      * by apply (Hall 0).
      * by injection Hlen.
      * intros i x' y'. apply (Hall (S i)).
Qed.

(** ** The store under the operations *)






Lemma alloc_obj_new inst st :
  objs (alloc_obj inst st).2 !! (alloc_obj inst st).1 = Some inst ∧
  objs st !! (alloc_obj inst st).1 = None ∧
  sets (alloc_obj inst st).2 = sets st.
Proof.
  unfold alloc_obj. simpl. split_and!; [by rewrite lookup_insert_eq| |done].
  apply not_elem_of_dom, is_fresh.
Qed.

Lemma alloc_set_new s st :
  sets (alloc_set s st).2 !! (alloc_set s st).1 = Some s ∧
  sets st !! (alloc_set s st).1 = None ∧
  objs (alloc_set s st).2 = objs st.
Proof.
  unfold alloc_set. simpl. split_and!; [by rewrite lookup_insert_eq| |done].
  apply not_elem_of_dom, is_fresh.
Qed.






Lemma missing_defaults fs : ∀ sl,
  (∀ f, f ∈ fs → is_Some (f_default f)) → missing fs sl = [].
Proof.
  induction fs as [|f fs IH]; intros [|s sl] Hd; simpl; try done.
  assert (is_Some (fill f s)) as [v ->].
  { destruct s; simpl; [by eexists|]. apply Hd, list_elem_of_here. }
  apply IH. intros f' Hf'. by apply Hd, list_elem_of_further.
Qed.

Lemma missing_cons_None f fs sl :
  f_default f = None →
  missing (f :: fs) (None :: sl) = f_name f :: missing fs sl.
Proof. intros Hd. simpl. by rewrite Hd. Qed.

(** ** Index access *)

Lemma getitem_nat o i v :
  inst_items o !! i = Some v → getitem o (Z.of_nat i) = Ok v.
Proof.
  intros Hi. pose proof (lookup_lt_Some _ _ _ Hi) as Hlt.
  unfold getitem.
  destruct (Z.ltb_spec (Z.of_nat i) 0) as [?|_]; [lia|].
  destruct (Z.leb_spec 0 (Z.of_nat i)) as [_|?]; [|lia].
  destruct (Z.ltb_spec (Z.of_nat i) (Z.of_nat (length (inst_items o)))) as [_|?]; [|lia].
  simpl. by rewrite Nat2Z.id, Hi.
Qed.

(** A negative index counts from the end. *)
Lemma getitem_negative o i v :
  inst_items o !! i = Some v →
  getitem o (Z.of_nat i - Z.of_nat (length (inst_items o))) = Ok v.
Proof.
  intros Hi. pose proof (lookup_lt_Some _ _ _ Hi) as Hlt.
  unfold getitem.
  destruct (Z.ltb_spec (Z.of_nat i - Z.of_nat (length (inst_items o))) 0) as [_|?]; [|lia].
  replace (Z.of_nat i - Z.of_nat (length (inst_items o)) +
           Z.of_nat (length (inst_items o)))%Z with (Z.of_nat i) by lia.
  destruct (Z.leb_spec 0 (Z.of_nat i)) as [_|?]; [|lia].
  destruct (Z.ltb_spec (Z.of_nat i) (Z.of_nat (length (inst_items o)))) as [_|?]; [|lia].
  simpl. by rewrite Nat2Z.id, Hi.
Qed.

(** Keyword-only construction from any of the three classes succeeds
    as soon as the keywords are distinct field names and [decorator] is
    among them where the class requires it. *)
Lemma construct_keywords_succeeds cls kwargs :
  cls ∈ Spec.classes →
  NoDup kwargs.*1 →
  (∀ k, k ∈ kwargs.*1 → k ∈ field_names cls) →
  (cls = Spec.DecoratorAnnotationSpecification → "decorator" ∈ kwargs.*1) →
  ∃ o, construct cls [] kwargs = Ok o.
Proof.
  intros Hcls Hnd Hkeys Hreq.
  apply construct_succeeds; try done.
  - by apply classes_cls_free.
  - by apply classes_NoDup.
  - simpl. lia.
  - intros k Hk. destruct (index_of_elem k (field_names cls)) as [i Hi]; [auto|].
    exists i. split; [done|simpl; lia].
  - intros i f Hf Hd. right.
    apply list_elem_of_lookup_2 in Hf.
    destruct (classes_defaults cls f Hcls Hf) as [?|(-> & -> & _)];
      [congruence|auto].
Qed.

(** * Main results *)

(** C1.  Round trip.  Whatever subset of the fields is passed by
    keyword, in whatever order, to any of the three classes (with
    [decorator] among them for [DecoratorAnnotationSpecification]),
    construction succeeds, every supplied field reads back as the value
    supplied, and every omitted field reads back as [None]. *)
Theorem construct_roundtrip cls kwargs :
  cls ∈ Spec.classes →
  NoDup kwargs.*1 →
  (∀ k, k ∈ kwargs.*1 → k ∈ field_names cls) →
  (cls = Spec.DecoratorAnnotationSpecification → "decorator" ∈ kwargs.*1) →
  ∃ o, construct cls [] kwargs = Ok o ∧ instance_of cls o ∧
    (∀ k v, (k, v) ∈ kwargs → getattr o k = Ok v) ∧
    (∀ k, k ∈ field_names cls → k ∉ kwargs.*1 → getattr o k = Ok VNone).
Proof.
  intros Hcls Hnd Hkeys Hreq.
  destruct (construct_keywords_succeeds cls kwargs) as [o Ho]; try done.
  exists o. split; [done|]. split; [by eapply construct_instance_of|]. split.
  - intros k v Hkv.
    destruct (index_of_elem k (field_names cls)) as [i Hi].
    { apply Hkeys, list_elem_of_fmap. by exists (k, v). }
    destruct (construct_getattr cls [] kwargs o k i Ho Hi) as (f & _ & _ & _ & ->).
    by rewrite (kw_lookup_elem k v kwargs Hnd Hkv).
  - intros k Hk Hout.
    destruct (index_of_elem k (field_names cls) Hk) as [i Hi].
    destruct (construct_getattr cls [] kwargs o k i Ho Hi) as (f & Hf & Hname & _ & ->).
    rewrite (proj2 (kw_lookup_None k kwargs) Hout), lookup_nil.
    apply list_elem_of_lookup_2 in Hf.
    destruct (classes_defaults cls f Hcls Hf) as [->|(-> & Hdec & _)]; [done|].
    exfalso. apply Hout. rewrite <- Hname, Hdec. by apply Hreq.
Qed.

(** C1 at [DecoratorAnnotationSpecification(decorator="staticmethod")]:
    [decorator] reads back ["staticmethod"], the six other fields
    [None]. *)
Lemma construct_roundtrip_staticmethod :
  ∃ o,
    construct Spec.DecoratorAnnotationSpecification []
      [("decorator", VStr "staticmethod")] = Ok o ∧
    instance_of Spec.DecoratorAnnotationSpecification o ∧
    (∀ k v, (k, v) ∈ [("decorator", VStr "staticmethod")] → getattr o k = Ok v) ∧
    (∀ k, k ∈ field_names Spec.DecoratorAnnotationSpecification →
          k ∉ [("decorator", VStr "staticmethod")].*1 → getattr o k = Ok VNone).
Proof.
  apply (construct_roundtrip Spec.DecoratorAnnotationSpecification
           [("decorator", VStr "staticmethod")]).
  - unfold Spec.classes. apply list_elem_of_further, list_elem_of_further, list_elem_of_here.
  - simpl. apply NoDup_cons. split; [apply not_elem_of_nil | apply NoDup_nil_2].
  - simpl. intros k Hk. apply elem_of_cons in Hk as [->|Hk].
    + apply list_elem_of_here.
    + by apply elem_of_nil in Hk.
  - intros _. simpl. apply list_elem_of_here.
Defined.

Lemma construct_without_decorator kwargs sl :
  "decorator" ∉ kwargs.*1 →
  bind_keywords Spec.DecoratorAnnotationSpecification (bind_positional 7 []) kwargs
  = Ok sl →
  construct Spec.DecoratorAnnotationSpecification [] kwargs
  = Err (TypeError (MissingArguments ["decorator"])).
Proof.
  intros Hout Hsl.
  unfold construct. simpl length. rewrite Hsl. simpl.
  apply bind_keywords_Ok in Hsl as [Hlen Hslots].
  destruct (Hslots "decorator" 0 eq_refl) as [_ H0].
  rewrite (proj2 (kw_lookup_None _ _) Hout) in H0.
  destruct sl as [|s0 sl]; [done|]. simpl in H0. injection H0 as ->.
  unfold fill_defaults, Spec.DecoratorAnnotationSpecification.
  cbn [cls_fields]. rewrite missing_cons_None by done.
  rewrite missing_defaults; [done|].
  intros f Hf. repeat (apply elem_of_cons in Hf as [->|Hf]; [by eexists|]).
  by apply elem_of_nil in Hf.
Qed.

(** C3.  A keyword call that does not pass [decorator] raises
    [TypeError], whatever else it passes.  When the keywords are drawn
    without repetition from the seven field names, the error is the
    missing-argument one if [decorator] is left out, and construction
    succeeds if [decorator] is passed, whichever of the other six are
    left out. *)
Theorem decorator_required kwargs :
  ("decorator" ∉ kwargs.*1 →
     ∃ e, construct Spec.DecoratorAnnotationSpecification [] kwargs
          = Err (TypeError e)) ∧
  (NoDup kwargs.*1 →
   (∀ k, k ∈ kwargs.*1 → k ∈ field_names Spec.DecoratorAnnotationSpecification) →
   ("decorator" ∉ kwargs.*1 →
      construct Spec.DecoratorAnnotationSpecification [] kwargs
      = Err (TypeError (MissingArguments ["decorator"]))) ∧
   ("decorator" ∈ kwargs.*1 →
      ∃ o, construct Spec.DecoratorAnnotationSpecification [] kwargs = Ok o)).
Proof.
  split.
  - intros Hout.
    destruct (bind_keywords Spec.DecoratorAnnotationSpecification
                (bind_positional 7 []) kwargs) as [sl|e] eqn:Hsl.
    + eexists. by eapply construct_without_decorator.
    + unfold construct. simpl length. rewrite Hsl. simpl.
      apply bind_keywords_Err in Hsl as (k & _ & [->| ->]); by eexists.
  - intros Hnd Hkeys. split.
    + intros Hout.
      destruct (bind_keywords_succeeds Spec.DecoratorAnnotationSpecification kwargs
                  (bind_positional 7 []) eq_refl Hnd) as [sl Hsl].
      { intros k Hk. destruct (index_of_elem _ _ (Hkeys k Hk)) as [i Hi].
        exists i. split; [done|].
        rewrite bind_positional_lookup; [by rewrite lookup_nil|].
        by apply field_index_lt in Hi. }
      by eapply construct_without_decorator.
    + intros Hin.
      apply construct_keywords_succeeds; try done.
      unfold Spec.classes.
      apply list_elem_of_further, list_elem_of_further, list_elem_of_here.
Qed.

(** C3 at a call that passes only [arg_annotation]. *)
Lemma decorator_required_example :
  construct Spec.DecoratorAnnotationSpecification [] [("arg_annotation", VStr "T")]
  = Err (TypeError (MissingArguments ["decorator"])).
Proof.
  apply (proj2 (decorator_required [("arg_annotation", VStr "T")])).
  - simpl. apply NoDup_cons. split; [apply not_elem_of_nil | apply NoDup_nil_2].
  - simpl. intros k Hk. apply elem_of_cons in Hk as [->|Hk].
    + apply list_elem_of_further, list_elem_of_here.
    + by apply elem_of_nil in Hk.
  - simpl. intros Hk. apply elem_of_cons in Hk as [Hk|Hk].
    + discriminate Hk.
    + by apply elem_of_nil in Hk.
Defined.

(** C4.  [AnnotationSpecification] and [WhitelistSpecification] cannot
    fail: each argument may be left out or be any value at all (any
    string, in particular), and the instance holds what was passed,
    [None] where nothing was. *)
Theorem optional_only_total (a v k r t n : option value) :
  construct Spec.AnnotationSpecification []
    (keywords [("arg", a); ("vararg", v); ("kwarg", k); ("returns", r)])
  = Ok (Instance (Some Spec.AnnotationSpecification)
          [default VNone a; default VNone v; default VNone k; default VNone r]) ∧
  construct Spec.WhitelistSpecification []
    (keywords [("parameter_type", t); ("parameter_name", n)])
  = Ok (Instance (Some Spec.WhitelistSpecification)
          [default VNone t; default VNone n]).
Proof.
  split.
  - by destruct a, v, k, r.
  - by destruct t, n.
Qed.

(** C2, as stated, fails: the empty string is accepted as [decorator]. *)
Lemma decorator_may_be_empty :
  ¬ (∀ args kwargs o,
       construct Spec.DecoratorAnnotationSpecification args kwargs = Ok o →
       ∃ s, getattr o "decorator" = Ok (VStr s) ∧ s ≠ "").
Proof.
  intros H.
  destruct (H [] [("decorator", VStr "")] _ eq_refl) as (s & Hs & Hne).
  apply Hne. vm_compute in Hs. congruence.
Qed.

(** C2, amended.  The [decorator] field of a constructed instance is
    set and holds exactly the value supplied for it, as first
    positional argument or as keyword; nothing is checked about that
    value, and the empty string is accepted. *)
Theorem decorator_as_supplied args kwargs o :
  construct Spec.DecoratorAnnotationSpecification args kwargs = Ok o →
  (∃ v, getattr o "decorator" = Ok v ∧ getitem o 0 = Ok v ∧
        (args !! 0 = Some v ∨
         (args = [] ∧ kw_lookup "decorator" kwargs = Some v))) ∧
  construct Spec.DecoratorAnnotationSpecification [] [("decorator", VStr "")]
  = Ok (Instance (Some Spec.DecoratorAnnotationSpecification)
          [VStr ""; VNone; VNone; VNone; VNone; VNone; VNone]).
Proof.
  intros Ho. split; [|done].
  destruct (construct_getattr _ args kwargs o "decorator" 0 Ho eq_refl)
    as (f & Hf & _ & Hitem & Hget).
  pose proof (construct_instance_of _ _ _ _ Ho) as [_ Hlen].
  apply construct_Ok in Ho as (sl & Hb & _ & _ & Hm & _).
  apply bind_keywords_Ok in Hb as [_ Hslots].
  destruct (Hslots "decorator" 0 eq_refl) as [Hempty Hfinal].
  rewrite bind_positional_lookup in Hempty, Hfinal by (simpl; lia).
  injection Hf as <-. simpl in Hget, Hitem.
  eexists. split; [exact Hget|]. split.
  { by apply (getitem_nat o 0). }
  destruct (kw_lookup "decorator" kwargs) as [v|] eqn:Ek.
  - right. split; [|done].
    assert (args !! 0 = None) as Hnil by (injection (Hempty ltac:(eauto)); done).
    by destruct args.
  - destruct (args !! 0) as [a|] eqn:Ea; [by left|]. exfalso.
    destruct (proj1 (missing_nil _ _) Hm 0 _ _ eq_refl Hfinal) as [? Hfill].
    done.
Qed.

(** C2 (amended) at the call [DecoratorAnnotationSpecification("")]. *)
Lemma decorator_as_supplied_example :
  ∃ v, getattr (Instance (Some Spec.DecoratorAnnotationSpecification)
                  [VStr ""; VNone; VNone; VNone; VNone; VNone; VNone])
         "decorator" = Ok v ∧
       getitem (Instance (Some Spec.DecoratorAnnotationSpecification)
                  [VStr ""; VNone; VNone; VNone; VNone; VNone; VNone]) 0 = Ok v ∧
       ([VStr ""] !! 0 = Some v ∨
        ([VStr ""] = [] ∧ kw_lookup "decorator" [] = Some v)).
Proof.
  apply (decorator_as_supplied [VStr ""] []). reflexivity.
Defined.

Lemma getattr_instance cls o name i :
  instance_of cls o → field_index cls name = Some i →
  ∃ v, inst_items o !! i = Some v ∧ getattr o name = Ok v.
Proof.
  intros [Hcls Hlen] Hi.
  destruct (lookup_lt_is_Some_2 (inst_items o) i) as [v Hv].
  { rewrite Hlen. by eapply field_index_lt. }
  exists v. split; [done|]. unfold getattr. by rewrite Hcls, Hi, Hv.
Qed.

Lemma read_field_instance st cls o name i v :
  instance_of cls o → field_index cls name = Some i →
  inst_items o !! i = Some v → read_field st o name = denote st v.
Proof.
  intros Ho Hi Hv. unfold read_field.
  destruct (getattr_instance cls o name i Ho Hi) as (v' & Hv' & ->).
  congruence.
Qed.

(** C5.  Equality is by value.  Two instances of the same class, in a
    store where every reference they hold is live, are equal exactly
    when each field stands for the same value in both (the same string,
    the same set of strings, or [None]); so a difference in any one
    field makes them unequal. *)
Theorem equality_value_based st cls x y :
  cls ∈ Spec.classes →
  instance_of cls x → instance_of cls y →
  (∀ v, v ∈ inst_items x → is_Some (denote st v)) →
  (∀ v, v ∈ inst_items y → is_Some (denote st v)) →
  (tuple_eq st x y = true ↔
     ∀ name, name ∈ field_names cls →
       read_field st x name = read_field st y name) ∧
  (∀ name, name ∈ field_names cls →
     read_field st x name ≠ read_field st y name → tuple_eq st x y = false).
Proof.
  intros Hcls Hx Hy Hdx Hdy.
  assert (tuple_eq st x y = true ↔
          ∀ name, name ∈ field_names cls →
            read_field st x name = read_field st y name) as Hiff.
  { unfold tuple_eq. rewrite items_eq_spec. split.
    - intros [_ Hall] name Hname.
      destruct (index_of_elem _ _ Hname) as [i Hi].
      destruct (getattr_instance cls x name i Hx Hi) as (a & Ha & _).
      destruct (getattr_instance cls y name i Hy Hi) as (b & Hb & _).
      rewrite (read_field_instance st cls x name i a),
              (read_field_instance st cls y name i b) by done.
      destruct (Hdx a) as [da Hda]; [by eapply list_elem_of_lookup_2|].
      destruct (Hdy b) as [db Hdb]; [by eapply list_elem_of_lookup_2|].
      rewrite Hda, Hdb. f_equal.
      apply (py_eq_denote st a b); [done..|]. by eapply Hall.
    - intros Hall. split; [destruct Hx as [_ ->], Hy as [_ ->]; done|].
      intros i a b Ha Hb.
      destruct (lookup_lt_is_Some_2 (cls_fields cls) i) as [f Hf].
      { destruct Hx as [_ <-]. by eapply lookup_lt_Some. }
      pose proof (field_index_of_field cls i f (classes_NoDup cls Hcls) Hf) as Hi.
      assert (f_name f ∈ field_names cls) as Hname.
      { apply list_elem_of_fmap. exists f. split; [done|].
        by eapply list_elem_of_lookup_2. }
      specialize (Hall _ Hname).
      rewrite (read_field_instance st cls x _ i a),
              (read_field_instance st cls y _ i b) in Hall by done.
      destruct (Hdx a) as [da Hda]; [by eapply list_elem_of_lookup_2|].
      destruct (Hdy b) as [db Hdb]; [by eapply list_elem_of_lookup_2|].
      apply (py_eq_denote st a b da db); [done..|]. congruence. }
  split; [done|].
  intros name Hname Hdiff. apply not_true_iff_false. intros Heq.
  apply Hdiff. by apply Hiff.
Qed.

(** C5 at two [WhitelistSpecification]s holding two different set
    objects with the same contents. *)
Lemma equality_value_based_example :
  (tuple_eq (Store (<[1%positive := {["a"]}]> (<[2%positive := {["a"]}]> ∅)) ∅)
     (Instance (Some Spec.WhitelistSpecification) [VSet 1%positive; VNone])
     (Instance (Some Spec.WhitelistSpecification) [VSet 2%positive; VNone]) = true ↔
   ∀ name, name ∈ field_names Spec.WhitelistSpecification →
     read_field (Store (<[1%positive := {["a"]}]> (<[2%positive := {["a"]}]> ∅)) ∅)
       (Instance (Some Spec.WhitelistSpecification) [VSet 1%positive; VNone]) name =
     read_field (Store (<[1%positive := {["a"]}]> (<[2%positive := {["a"]}]> ∅)) ∅)
       (Instance (Some Spec.WhitelistSpecification) [VSet 2%positive; VNone]) name) ∧
  (∀ name, name ∈ field_names Spec.WhitelistSpecification →
     read_field (Store (<[1%positive := {["a"]}]> (<[2%positive := {["a"]}]> ∅)) ∅)
       (Instance (Some Spec.WhitelistSpecification) [VSet 1%positive; VNone]) name ≠
     read_field (Store (<[1%positive := {["a"]}]> (<[2%positive := {["a"]}]> ∅)) ∅)
       (Instance (Some Spec.WhitelistSpecification) [VSet 2%positive; VNone]) name →
     tuple_eq (Store (<[1%positive := {["a"]}]> (<[2%positive := {["a"]}]> ∅)) ∅)
       (Instance (Some Spec.WhitelistSpecification) [VSet 1%positive; VNone])
       (Instance (Some Spec.WhitelistSpecification) [VSet 2%positive; VNone]) = false).
Proof.
  apply (equality_value_based
           (Store (<[1%positive := {["a"]}]> (<[2%positive := {["a"]}]> ∅)) ∅)
           Spec.WhitelistSpecification).
  - unfold Spec.classes. apply list_elem_of_further, list_elem_of_here.
  - split; reflexivity.
  - split; reflexivity.
  - simpl. intros v Hv. apply elem_of_cons in Hv as [->|Hv].
    + simpl. rewrite lookup_insert_eq. by eexists.
    + apply elem_of_cons in Hv as [->|Hv]; [by eexists|]. by apply elem_of_nil in Hv.
  - simpl. intros v Hv. apply elem_of_cons in Hv as [->|Hv].
    + simpl. rewrite lookup_insert_ne by done. rewrite lookup_insert_eq. by eexists.
    + apply elem_of_cons in Hv as [->|Hv]; [by eexists|]. by apply elem_of_nil in Hv.
Defined.

Lemma present_spec st x w :
  Consumer.present st x w = true ↔
  ∃ s, denote st w = Some (DSet s) ∧ x ∈ s.
Proof.
  unfold Consumer.present. destruct w as [|a|l]; simpl.
  - split; [done|]. by intros (s & ? & _).
  - split; [done|]. by intros (s & ? & _).
  - destruct (sets st !! l) as [s|]; simpl.
    + rewrite bool_decide_eq_true. split.
      * intros Hx. by exists s.
      * by intros (s' & [= <-] & Hx).
    + split; [done|]. by intros (s & ? & _).
Qed.

(** C6.  The exemption rule on a [WhitelistSpecification]: a parameter
    is exempt exactly when [parameter_type] is set and contains its
    type, or [parameter_name] is set and contains its name; with both
    unset nothing is exempt. *)
Theorem whitelist_exemption st ptype pname w :
  instance_of Spec.WhitelistSpecification w →
  (Consumer.whitelist_exempt st ptype pname w = true ↔
     (∃ s, read_field st w "parameter_type" = Some (DSet s) ∧ ptype ∈ s) ∨
     (∃ s, read_field st w "parameter_name" = Some (DSet s) ∧ pname ∈ s)) ∧
  (getattr w "parameter_type" = Ok VNone →
   getattr w "parameter_name" = Ok VNone →
   ∀ ptype' pname', Consumer.whitelist_exempt st ptype' pname' w = false).
Proof.
  intros Hw.
  destruct (getattr_instance _ w "parameter_type" 0 Hw eq_refl) as (t & _ & Ht).
  destruct (getattr_instance _ w "parameter_name" 1 Hw eq_refl) as (n & _ & Hn).
  unfold Consumer.whitelist_exempt, read_field. rewrite Ht, Hn. split.
  - unfold Consumer.exempt. rewrite orb_true_iff.
    by rewrite !present_spec.
  - by intros [= ->] [= ->].
Qed.

(** C6 at a whitelist with only [parameter_name] set, to [{"self"}]. *)
Lemma whitelist_exemption_example :
  (Consumer.whitelist_exempt (Store {[1%positive := {["self"]}]} ∅) "int" "self"
     (Instance (Some Spec.WhitelistSpecification) [VNone; VSet 1%positive]) = true ↔
     (∃ s, read_field (Store {[1%positive := {["self"]}]} ∅)
             (Instance (Some Spec.WhitelistSpecification) [VNone; VSet 1%positive])
             "parameter_type" = Some (DSet s) ∧ "int" ∈ s) ∨
     (∃ s, read_field (Store {[1%positive := {["self"]}]} ∅)
             (Instance (Some Spec.WhitelistSpecification) [VNone; VSet 1%positive])
             "parameter_name" = Some (DSet s) ∧ "self" ∈ s)) ∧
  (getattr (Instance (Some Spec.WhitelistSpecification) [VNone; VSet 1%positive])
     "parameter_type" = Ok VNone →
   getattr (Instance (Some Spec.WhitelistSpecification) [VNone; VSet 1%positive])
     "parameter_name" = Ok VNone →
   ∀ ptype' pname',
     Consumer.whitelist_exempt (Store {[1%positive := {["self"]}]} ∅) ptype' pname'
       (Instance (Some Spec.WhitelistSpecification) [VNone; VSet 1%positive]) = false).
Proof.
  apply (whitelist_exemption (Store {[1%positive := {["self"]}]} ∅) "int" "self").
  split; reflexivity.
Defined.




Lemma set_fields_names cls name :
  name ∈ set_fields cls → name ∈ field_names cls.
Proof.
  unfold set_fields, field_names.
  intros (f & -> & Hf)%list_elem_of_fmap.
  apply list_elem_of_fmap. exists f. split; [done|].
  apply list_elem_of_In. apply list_elem_of_In in Hf.
  by apply filter_In in Hf as [Hf _].
Qed.

(** The set-typed fields are the four whitelist fields. *)
Example set_fields_of_classes :
  set_fields Spec.AnnotationSpecification = [] ∧
  set_fields Spec.WhitelistSpecification = ["parameter_type"; "parameter_name"] ∧
  set_fields Spec.DecoratorAnnotationSpecification
  = ["parameter_type_whitelist"; "parameter_name_whitelist"].
Proof. done. Qed.

(** C9.  Immutability is shallow.  Take an instance built with a
    reference to a set object in one of its set-typed fields.  Adding
    an element to that set object succeeds and changes no tuple object
    (the field still holds the same reference), yet what the field
    stands for has changed. *)
Theorem immutability_is_shallow st cls name kwargs inst l s x :
  cls ∈ Spec.classes → name ∈ set_fields cls →
  construct cls [] kwargs = Ok inst →
  kw_lookup name kwargs = Some (VSet l) →
  sets st !! l = Some s → x ∉ s →
  ∃ st2,
    exec (SetAdd l x) (alloc_obj inst st).2 = Ok st2 ∧
    objs st2 = objs (alloc_obj inst st).2 ∧
    objs st2 !! (alloc_obj inst st).1 = Some inst ∧
    getattr inst name = Ok (VSet l) ∧
    read_field (alloc_obj inst st).2 inst name = Some (DSet s) ∧
    read_field st2 inst name = Some (DSet ({[x]} ∪ s)) ∧
    read_field st2 inst name ≠ read_field (alloc_obj inst st).2 inst name.
Proof.
  intros Hcls Hname Hinst Hkw Hs Hx.
  destruct (index_of_elem _ _ (set_fields_names _ _ Hname)) as [i Hi].
  destruct (construct_getattr cls [] kwargs inst name i Hinst Hi)
    as (f & _ & _ & _ & Hget).
  rewrite Hkw in Hget.
  destruct (alloc_obj_new inst st) as (Hnew & _ & Hsets).
  eexists. split_and!.
  - simpl. unfold update_set. simpl. rewrite Hs. reflexivity.
  - done.
  - exact Hnew.
  - done.
  - unfold read_field. rewrite Hget. simpl. by rewrite Hs.
  - unfold read_field. rewrite Hget. simpl. by rewrite lookup_insert_eq.
  - unfold read_field. rewrite Hget. simpl. rewrite lookup_insert_eq, Hs. simpl.
    intros [= Heq]. apply Hx. rewrite <- Heq.
    by apply elem_of_union_l, elem_of_singleton.
Qed.

(** C9 at [WhitelistSpecification(parameter_type=t)] with [t = {"int"}],
    followed by [t.add("str")]. *)
Lemma immutability_is_shallow_example :
  ∃ st2,
    exec (SetAdd 1%positive "str")
      (alloc_obj (Instance (Some Spec.WhitelistSpecification) [VSet 1%positive; VNone])
         (Store {[1%positive := {["int"]}]} ∅)).2 = Ok st2 ∧
    objs st2 =
      objs (alloc_obj (Instance (Some Spec.WhitelistSpecification) [VSet 1%positive; VNone])
              (Store {[1%positive := {["int"]}]} ∅)).2 ∧
    objs st2 !!
      (alloc_obj (Instance (Some Spec.WhitelistSpecification) [VSet 1%positive; VNone])
         (Store {[1%positive := {["int"]}]} ∅)).1
    = Some (Instance (Some Spec.WhitelistSpecification) [VSet 1%positive; VNone]) ∧
    getattr (Instance (Some Spec.WhitelistSpecification) [VSet 1%positive; VNone])
      "parameter_type" = Ok (VSet 1%positive) ∧
    read_field
      (alloc_obj (Instance (Some Spec.WhitelistSpecification) [VSet 1%positive; VNone])
         (Store {[1%positive := {["int"]}]} ∅)).2
      (Instance (Some Spec.WhitelistSpecification) [VSet 1%positive; VNone])
      "parameter_type" = Some (DSet {["int"]}) ∧
    read_field st2
      (Instance (Some Spec.WhitelistSpecification) [VSet 1%positive; VNone])
      "parameter_type" = Some (DSet ({["str"]} ∪ {["int"]})) ∧
    read_field st2
      (Instance (Some Spec.WhitelistSpecification) [VSet 1%positive; VNone])
      "parameter_type" ≠
    read_field
      (alloc_obj (Instance (Some Spec.WhitelistSpecification) [VSet 1%positive; VNone])
         (Store {[1%positive := {["int"]}]} ∅)).2
      (Instance (Some Spec.WhitelistSpecification) [VSet 1%positive; VNone])
      "parameter_type".
Proof.
  apply (immutability_is_shallow (Store {[1%positive := {["int"]}]} ∅)
           Spec.WhitelistSpecification "parameter_type"
           [("parameter_type", VSet 1%positive)]).
  - unfold Spec.classes. apply list_elem_of_further, list_elem_of_here.
  - apply list_elem_of_here.
  - reflexivity.
  - reflexivity.
  - simpl. apply lookup_singleton_eq.
  - intros Hin. apply elem_of_singleton in Hin. discriminate Hin.
Defined.

Lemma items_eq_Forall2 st xs : ∀ ys,
  Forall2 (λ a b, py_eq st a b = true) xs ys → items_eq st xs ys = true.
Proof.
  induction xs as [|x xs IH]; intros ys Hall; inversion Hall; subst; simpl.
  - done.
  - apply andb_true_iff. split; [done|by apply IH].
Qed.

(** C10.  The records are tuples.  On an instance constructed from any
    of the three classes: the field declared in position [i] is the
    item at index [i] (and at [i - len] counted from the end), with
    [decorator] at index 0; a positional argument lands in the field of
    its position; and comparison with a tuple of any class, or of none,
    looks at the items only. *)
Theorem records_are_tuples st cls args kwargs o :
  cls ∈ Spec.classes →
  construct cls args kwargs = Ok o →
  (∀ i name, field_names cls !! i = Some name →
     ∃ v, getattr o name = Ok v ∧ getitem o (Z.of_nat i) = Ok v ∧
          getitem o (Z.of_nat i - Z.of_nat (length (field_names cls))) = Ok v) ∧
  (cls = Spec.DecoratorAnnotationSpecification →
     getitem o 0 = getattr o "decorator") ∧
  (∀ i a, args !! i = Some a →
     ∃ name, field_names cls !! i = Some name ∧ getattr o name = Ok a) ∧
  (∀ c items, Forall2 (λ a b, py_eq st a b = true) (inst_items o) items →
     tuple_eq st o (Instance c items) = true) ∧
  tuple_eq st o (Instance None (inst_items o)) = true.
Proof.
  intros Hcls Ho.
  pose proof (classes_NoDup cls Hcls) as Hnd.
  pose proof (construct_instance_of _ _ _ _ Ho) as Hinst.
  assert (∀ i name, field_names cls !! i = Some name →
            ∃ v, getattr o name = Ok v ∧ getitem o (Z.of_nat i) = Ok v ∧
                 getitem o (Z.of_nat i - Z.of_nat (length (field_names cls))) = Ok v)
    as Hindex.
  { intros i name Hi. apply (index_of_lookup _ _ _ Hnd) in Hi.
    destruct (getattr_instance cls o name i Hinst Hi) as (v & Hv & Hget).
    exists v. split; [done|]. split; [by apply getitem_nat|].
    unfold field_names. rewrite length_fmap. destruct Hinst as [_ <-].
    by apply getitem_negative. }
  split_and!.
  - done.
  - intros ->. destruct (Hindex 0 "decorator" eq_refl) as (v & -> & Hv & _).
    exact Hv.
  - intros i a Ha.
    pose proof (construct_Ok _ _ _ _ Ho) as (sl & Hb & Hlen & _).
    destruct (lookup_lt_is_Some_2 (field_names cls) i) as [name Hname].
    { unfold field_names. rewrite length_fmap.
      apply lookup_lt_Some in Ha. lia. }
    exists name. split; [done|].
    pose proof (index_of_lookup _ _ _ Hnd Hname) as Hi.
    destruct (construct_getattr cls args kwargs o name i Ho Hi) as (f & _ & _ & _ & ->).
    apply bind_keywords_Ok in Hb as [_ Hslots].
    destruct (Hslots name i Hi) as [Hempty _].
    rewrite bind_positional_lookup, Ha in Hempty by (by eapply field_index_lt).
    destruct (kw_lookup name kwargs) as [v|]; [|by rewrite Ha].
    by specialize (Hempty ltac:(eauto)).
  - intros c items Hall. by apply items_eq_Forall2.
  - unfold tuple_eq. simpl. apply items_eq_Forall2.
    apply Forall2_same_length_lookup. split; [done|].
    intros i a b Ha Hb. rewrite Ha in Hb. injection Hb as <-. apply py_eq_refl.
Qed.

(** C10 at the positional call
    [DecoratorAnnotationSpecification("property", "T")]. *)
Lemma records_are_tuples_example :
  (∀ i name, field_names Spec.DecoratorAnnotationSpecification !! i = Some name →
     ∃ v, getattr (Instance (Some Spec.DecoratorAnnotationSpecification)
                     [VStr "property"; VStr "T"; VNone; VNone; VNone; VNone; VNone])
            name = Ok v ∧
          getitem (Instance (Some Spec.DecoratorAnnotationSpecification)
                     [VStr "property"; VStr "T"; VNone; VNone; VNone; VNone; VNone])
            (Z.of_nat i) = Ok v ∧
          getitem (Instance (Some Spec.DecoratorAnnotationSpecification)
                     [VStr "property"; VStr "T"; VNone; VNone; VNone; VNone; VNone])
            (Z.of_nat i -
             Z.of_nat (length (field_names Spec.DecoratorAnnotationSpecification)))
          = Ok v) ∧
  (Spec.DecoratorAnnotationSpecification = Spec.DecoratorAnnotationSpecification →
     getitem (Instance (Some Spec.DecoratorAnnotationSpecification)
                [VStr "property"; VStr "T"; VNone; VNone; VNone; VNone; VNone]) 0
     = getattr (Instance (Some Spec.DecoratorAnnotationSpecification)
                  [VStr "property"; VStr "T"; VNone; VNone; VNone; VNone; VNone])
         "decorator") ∧
  (∀ i a, [VStr "property"; VStr "T"] !! i = Some a →
     ∃ name, field_names Spec.DecoratorAnnotationSpecification !! i = Some name ∧
       getattr (Instance (Some Spec.DecoratorAnnotationSpecification)
                  [VStr "property"; VStr "T"; VNone; VNone; VNone; VNone; VNone])
         name = Ok a) ∧
  (∀ c items,
     Forall2 (λ a b, py_eq empty_store a b = true)
       (inst_items (Instance (Some Spec.DecoratorAnnotationSpecification)
                      [VStr "property"; VStr "T"; VNone; VNone; VNone; VNone; VNone]))
       items →
     tuple_eq empty_store
       (Instance (Some Spec.DecoratorAnnotationSpecification)
          [VStr "property"; VStr "T"; VNone; VNone; VNone; VNone; VNone])
       (Instance c items) = true) ∧
  tuple_eq empty_store
    (Instance (Some Spec.DecoratorAnnotationSpecification)
       [VStr "property"; VStr "T"; VNone; VNone; VNone; VNone; VNone])
    (Instance None
       (inst_items (Instance (Some Spec.DecoratorAnnotationSpecification)
                      [VStr "property"; VStr "T"; VNone; VNone; VNone; VNone; VNone])))
  = true.
Proof.
  apply (records_are_tuples empty_store Spec.DecoratorAnnotationSpecification
           [VStr "property"; VStr "T"] []).
  - unfold Spec.classes.
    apply list_elem_of_further, list_elem_of_further, list_elem_of_here.
  - reflexivity.
Defined.

Lemma decorator_exempt_by_name st ptype pname d l s :
  getattr d "parameter_type_whitelist" = Ok VNone →
  getattr d "parameter_name_whitelist" = Ok (VSet l) →
  sets st !! l = Some s →
  Consumer.decorator_exempt st ptype pname d = bool_decide (pname ∈ s).
Proof.
  intros Ht Hn Hs. unfold Consumer.decorator_exempt. rewrite Ht, Hn.
  unfold Consumer.exempt, Consumer.present. by rewrite Hs.
Qed.

(** C8.  The [cached_property] scenario.  With the set [{"self"}]
    allocated in any store and the specification built from it: a
    lookup for a callable decorated with ["cached_property"] selects the
    specification; a parameter named ["self"] is exempt whatever its
    type; a parameter named ["value"] is not exempt and, [arg_annotation]
    being unset, receives no annotation; the return value receives
    ["Any"]. *)
Theorem cached_property_scenario st ptype :
  ∃ d,
    construct Spec.DecoratorAnnotationSpecification []
      [("decorator", VStr "cached_property");
       ("return_annotation", VStr "Any");
       ("parameter_name_whitelist", VSet (alloc_set {["self"]} st).1)] = Ok d ∧
    Consumer.select [d] ["cached_property"] = [d] ∧
    (∀ table decorators,
       d ∈ table → "cached_property" ∈ decorators →
       d ∈ Consumer.select table decorators) ∧
    Consumer.decorator_exempt (alloc_set {["self"]} st).2 ptype "self" d = true ∧
    Consumer.decorator_exempt (alloc_set {["self"]} st).2 ptype "value" d = false ∧
    getattr d "arg_annotation" = Ok VNone ∧
    Consumer.parameter_annotation (alloc_set {["self"]} st).2 d ptype "value" = None ∧
    Consumer.return_annotation d = Some "Any".
Proof.
  destruct (alloc_set_new {["self"]} st) as (Hl & _ & _).
  eexists. split; [reflexivity|].
  assert (∀ pname,
            Consumer.decorator_exempt (alloc_set {["self"]} st).2 ptype pname
              (Instance (Some Spec.DecoratorAnnotationSpecification)
                 [VStr "cached_property"; VNone; VNone; VNone; VStr "Any"; VNone;
                  VSet (alloc_set {["self"]} st).1])
            = bool_decide (pname ∈ ({["self"]} : gset string))) as Hex.
  { intros pname.
    by apply (decorator_exempt_by_name _ _ _ _ (alloc_set {["self"]} st).1). }
  split_and!.
  - reflexivity.
  - intros table decorators Hd Hdec. unfold Consumer.select.
    apply list_elem_of_In, filter_In. split; [by apply list_elem_of_In|].
    unfold Consumer.matches. simpl. by apply bool_decide_eq_true_2.
  - rewrite Hex. apply bool_decide_eq_true_2. by apply elem_of_singleton.
  - rewrite Hex. apply bool_decide_eq_false_2.
    intros Hin. apply elem_of_singleton in Hin. discriminate Hin.
  - reflexivity.
  - unfold Consumer.parameter_annotation. rewrite Hex.
    rewrite bool_decide_eq_false_2; [reflexivity|].
    intros Hin. apply elem_of_singleton in Hin. discriminate Hin.
  - reflexivity.
Qed.

(** * Further properties of the three classes *)

(** ** When construction succeeds, and how it fails *)

Lemma kw_lookup_Some_elem k v kwargs :
  kw_lookup k kwargs = Some v → (k, v) ∈ kwargs.
Proof.
  induction kwargs as [|[k' v'] rest IH]; simpl; [done|].
  destruct (String.eqb_spec k k') as [->|Hne].
  - intros [= ->]. apply list_elem_of_here.
  - intros H. apply list_elem_of_further. by apply IH.
Qed.

Lemma kw_lookup_Some_key k v kwargs :
  kw_lookup k kwargs = Some v → k ∈ kwargs.*1.
Proof.
  intros H%kw_lookup_Some_elem. apply list_elem_of_fmap. by exists (k, v).
Qed.

(** A binding that went through saw each keyword once, and each on a
    parameter that was still empty. *)
Lemma bind_keywords_Ok_keys cls kwargs : ∀ sl sl',
  bind_keywords cls sl kwargs = Ok sl' →
  NoDup kwargs.*1 ∧
  ∀ k, k ∈ kwargs.*1 → ∃ i, field_index cls k = Some i ∧ sl !! i = Some None.
Proof.
  induction kwargs as [|[k0 v0] rest IH]; intros sl sl'; simpl.
  - intros _. split; [apply NoDup_nil_2|]. intros k Hk. by apply elem_of_nil in Hk.
  - destruct (bind_keyword cls sl (k0, v0)) as [sl1|] eqn:E1; simpl; [|done].
    apply bind_keyword_Ok in E1 as (j & Hj & Hslj & ->). simpl in *.
    intros [Hnd Hfree]%IH.
    assert (<[j:=Some v0]> sl !! j = Some (Some v0)) as Hfilled.
    { apply list_lookup_insert_eq. by eapply lookup_lt_Some. }
    split.
    + apply NoDup_cons. split; [|done]. intros Hin.
      destruct (Hfree k0 Hin) as (i & Hi & Hsli).
      assert (i = j) as -> by congruence. congruence.
    + intros k [->|Hin]%elem_of_cons; [by exists j|].
      destruct (Hfree k Hin) as (i & Hi & Hsli). exists i. split; [done|].
      destruct (decide (i = j)) as [->|Hne]; [congruence|].
      by rewrite list_lookup_insert_ne in Hsli.
Qed.

(** How a binding with distinct keywords fails: on a keyword that
    names no parameter, on [_cls], or on a field whose slot was filled
    before the keywords were looked at. *)
Lemma bind_keywords_Err_kind cls kwargs : ∀ sl e,
  NoDup kwargs.*1 →
  bind_keywords cls sl kwargs = Err e →
  ∃ k, k ∈ kwargs.*1 ∧
    ((k ≠ "_cls" ∧ (k ∉ field_names cls) ∧ e = TypeError (UnexpectedKeyword k)) ∨
     (k = "_cls" ∧ e = TypeError (MultipleValues "_cls")) ∨
     (∃ i, k ≠ "_cls" ∧ field_index cls k = Some i ∧ sl !! i ≠ Some None ∧
           e = TypeError (MultipleValues k))).
Proof.
  induction kwargs as [|[k0 v0] rest IH]; intros sl e Hnd; simpl; [done|].
  apply NoDup_cons in Hnd as [Hfresh Hnd].
  destruct (bind_keyword cls sl (k0, v0)) as [sl1|e1] eqn:E1; simpl.
  - apply bind_keyword_Ok in E1 as (j & Hj & Hslj & ->). simpl in *.
    intros (k & Hk & Hkind)%IH; [|done].
    exists k. split; [by apply list_elem_of_further|].
    destruct Hkind as [?|[?|(i & Hne & Hi & Hfull & He)]]; [by left|by right; left|].
    right; right. exists i. split_and!; try done.
    assert (i ≠ j) as Hij.
    { intros ->. apply Hfresh. by rewrite (index_of_inj _ _ _ _ Hj Hi). }
    by rewrite list_lookup_insert_ne in Hfull.
  - intros [= <-]. exists k0. split; [apply list_elem_of_here|].
    unfold bind_keyword in E1. simpl in E1.
    destruct (String.eqb_spec k0 "_cls") as [->|Hne].
    { right; left. split; [done|congruence]. }
    destruct (field_index cls k0) as [i|] eqn:Ei.
    + right; right. exists i. split_and!; try done.
      * intros Hfree. by rewrite Hfree in E1.
      * destruct (sl !! i) as [[v|]|]; congruence.
    + left. split_and!; [done| |congruence]. by apply index_of_None.
Qed.

(** What a successful call must have looked like. *)
Lemma construct_Ok_conditions cls args kwargs o :
  construct cls args kwargs = Ok o →
  length args ≤ length (cls_fields cls) ∧
  NoDup kwargs.*1 ∧
  (∀ k, k ∈ kwargs.*1 → ∃ i, field_index cls k = Some i ∧ length args ≤ i) ∧
  (NoDup (field_names cls) →
   ∀ i f, cls_fields cls !! i = Some f → f_default f = None →
     i < length args ∨ f_name f ∈ kwargs.*1).
Proof.
  intros (sl & Hb & Hlen & _ & Hm & _)%construct_Ok.
  pose proof (bind_keywords_Ok_keys _ _ _ _ Hb) as [Hnd Hfree].
  apply bind_keywords_Ok in Hb as [_ Hslots].
  split_and!; [done|done| |].
  - intros k Hk. destruct (Hfree k Hk) as (i & Hi & Hsli).
    exists i. split; [done|].
    rewrite bind_positional_lookup in Hsli by (by eapply field_index_lt).
    apply lookup_ge_None. congruence.
  - intros Hnames i f Hf Hd.
    pose proof (field_index_of_field cls i f Hnames Hf) as Hi.
    destruct (Hslots _ i Hi) as [_ Hfinal].
    rewrite bind_positional_lookup in Hfinal by (by eapply lookup_lt_Some).
    destruct (kw_lookup (f_name f) kwargs) as [v|] eqn:Ek.
    { right. by eapply kw_lookup_Some_key. }
    destruct (args !! i) as [a|] eqn:Ea.
    { left. by eapply lookup_lt_Some. }
    destruct (proj1 (missing_nil _ _) Hm i f None Hf Hfinal) as [v Hv].
    simpl in Hv. congruence.
Qed.

Lemma decorator_at_0 i f :
  cls_fields Spec.DecoratorAnnotationSpecification !! i = Some f →
  f_default f = None → i = 0.
Proof.
  intros Hf Hd. destruct i as [|i]; [done|]. exfalso. simpl in Hf.
  do 6 (destruct i as [|i]; [injection Hf as <-; discriminate Hd|simpl in Hf]).
  by rewrite lookup_nil in Hf.
Qed.

(** X1.  Exactly when a call succeeds.  For each of the three classes:
    there are no more positional arguments than fields, the keywords
    are distinct field names lying beyond the positional arguments, and
    for [DecoratorAnnotationSpecification] the [decorator] is passed,
    positionally or by keyword. *)
Theorem construct_ok_iff cls args kwargs :
  cls ∈ Spec.classes →
  is_ok (construct cls args kwargs) = true ↔
  length args ≤ length (cls_fields cls) ∧
  NoDup kwargs.*1 ∧
  (∀ k, k ∈ kwargs.*1 → ∃ i, field_index cls k = Some i ∧ length args ≤ i) ∧
  (cls = Spec.DecoratorAnnotationSpecification →
     args ≠ [] ∨ "decorator" ∈ kwargs.*1).
Proof.
  intros Hcls. pose proof (classes_NoDup cls Hcls) as Hnames. split.
  - destruct (construct cls args kwargs) as [o|] eqn:Ho; [|done]. intros _.
    apply construct_Ok_conditions in Ho as (Hlen & Hnd & Hkeys & Hreq).
    split_and!; try done. intros ->.
    destruct (Hreq Hnames 0 _ eq_refl eq_refl) as [Hlt|Hin]; [|by right].
    left. intros ->. simpl in Hlt. lia.
  - intros (Hlen & Hnd & Hkeys & Hreq).
    destruct (construct_succeeds cls args kwargs (classes_cls_free cls Hcls))
      as [o ->]; try done.
    intros i f Hf Hd.
    pose proof (list_elem_of_lookup_2 _ _ _ Hf) as Hin.
    destruct (classes_defaults cls f Hcls Hin) as [?|(-> & Hname & _)]; [congruence|].
    rewrite Hname. destruct (Hreq eq_refl) as [Hargs|?]; [|by right].
    left. rewrite (decorator_at_0 i f Hf Hd). destruct args; [done|simpl; lia].
Qed.

(** X1 at [WhitelistSpecification(None, parameter_name=None)]. *)
Lemma construct_ok_iff_example :
  is_ok (construct Spec.WhitelistSpecification [VNone] [("parameter_name", VNone)]) = true ↔
  length [VNone] ≤ length (cls_fields Spec.WhitelistSpecification) ∧
  NoDup [("parameter_name", VNone)].*1 ∧
  (∀ k, k ∈ [("parameter_name", VNone)].*1 →
     ∃ i, field_index Spec.WhitelistSpecification k = Some i ∧ length [VNone] ≤ i) ∧
  (Spec.WhitelistSpecification = Spec.DecoratorAnnotationSpecification →
     [VNone] ≠ [] ∨ "decorator" ∈ [("parameter_name", VNone)].*1).
Proof.
  apply (construct_ok_iff Spec.WhitelistSpecification [VNone] [("parameter_name", VNone)]).
  unfold Spec.classes. apply list_elem_of_further, list_elem_of_here.
Defined.

Lemma missing_head f fs s sl :
  (∀ g, g ∈ fs → is_Some (f_default g)) →
  missing (f :: fs) (s :: sl) =
    match fill f s with Some _ => [] | None => [f_name f] end.
Proof.
  intros Hd. simpl. rewrite (missing_defaults fs sl Hd). by destruct (fill f s).
Qed.

(** X2.  How a call fails.  For each of the three classes, a call
    whose keywords are distinct and which fails raises a [TypeError] of
    one of five kinds: a keyword that names no parameter; a field passed
    both positionally and by keyword; the keyword [_cls], the hidden
    first parameter, which the call has always bound; more positional
    arguments than fields; or, for [DecoratorAnnotationSpecification]
    called without positional arguments and without the keyword, the
    missing [decorator], which is the only argument ever reported
    missing. *)
Theorem construct_errors cls args kwargs e :
  cls ∈ Spec.classes →
  NoDup kwargs.*1 →
  construct cls args kwargs = Err e →
  (∃ k, k ∈ kwargs.*1 ∧ (k ∉ field_names cls) ∧ k ≠ "_cls" ∧
        e = TypeError (UnexpectedKeyword k)) ∨
  (∃ k i, k ∈ kwargs.*1 ∧ field_index cls k = Some i ∧ i < length args ∧
          e = TypeError (MultipleValues k)) ∨
  ("_cls" ∈ kwargs.*1 ∧ e = TypeError (MultipleValues "_cls")) ∨
  (length (cls_fields cls) < length args ∧ e = TypeError TooManyPositional) ∨
  (cls = Spec.DecoratorAnnotationSpecification ∧ args = [] ∧
   ("decorator" ∉ kwargs.*1) ∧ e = TypeError (MissingArguments ["decorator"])).
Proof.
  intros Hcls Hnd. unfold construct.
  destruct (bind_keywords cls _ kwargs) as [sl|e0] eqn:Hb; simpl.
  2:{ intros [= <-].
      apply bind_keywords_Err_kind in Hb
        as (k & Hk & [(Hne & Hout & ->)|[[-> ->]|(i & Hne & Hi & Hfull & ->)]]);
        [| | |done].
      - left. by exists k.
      - right; right; left. done.
      - right; left. exists k, i. split_and!; try done.
        rewrite bind_positional_lookup in Hfull by (by eapply field_index_lt).
        destruct (args !! i) as [a|] eqn:Ea; [|done].
        by eapply lookup_lt_Some. }
  destruct (decide (length (cls_fields cls) < length args)) as [Hlt|_].
  { intros [= <-]. do 3 right. left. done. }
  pose proof (bind_keywords_Ok _ _ _ _ Hb) as [Hlen Hslots].
  unfold bind_positional in Hlen. rewrite length_resize in Hlen.
  unfold fill_defaults.
  assert (∀ g, g ∈ cls_fields cls → is_Some (f_default g) ∨
            (cls = Spec.DecoratorAnnotationSpecification ∧ f_name g = "decorator"))
    as Hdefs.
  { intros g Hg. destruct (classes_defaults cls g Hcls Hg) as [->|(? & ? & _)];
      [left; by eexists|by right]. }
  unfold Spec.classes in Hcls.
  apply elem_of_cons in Hcls as [->|Hcls];
    [|apply elem_of_cons in Hcls as [->|Hcls]];
    [| |apply elem_of_cons in Hcls as [->|Hcls]; [|by apply elem_of_nil in Hcls]].
  - rewrite missing_defaults; [done|].
    intros g Hg. by destruct (Hdefs g Hg) as [?|[? _]].
  - rewrite missing_defaults; [done|].
    intros g Hg. by destruct (Hdefs g Hg) as [?|[? _]].
  - destruct sl as [|s0 sl]; [done|].
    unfold Spec.DecoratorAnnotationSpecification at 1 2. cbn [cls_fields].
    rewrite missing_head.
    2:{ intros g Hg. repeat (apply elem_of_cons in Hg as [->|Hg]; [by eexists|]).
        by apply elem_of_nil in Hg. }
    destruct (Hslots "decorator" 0 eq_refl) as [_ H0].
    rewrite bind_positional_lookup in H0 by (simpl; lia). simpl in H0.
    destruct s0 as [v|]; simpl; [done|]. intros [= <-].
    do 4 right.
    destruct (kw_lookup "decorator" kwargs) as [v|] eqn:Ek; [done|].
    apply kw_lookup_None in Ek. injection H0 as H0.
    split_and!; try done. by destruct args.
Qed.

(** X2 at [AnnotationSpecification("a", arg="b")]. *)
Lemma construct_errors_example :
  (∃ k, k ∈ [("arg", VStr "b")].*1 ∧
        (k ∉ field_names Spec.AnnotationSpecification) ∧ k ≠ "_cls" ∧
        TypeError (MultipleValues "arg") = TypeError (UnexpectedKeyword k)) ∨
  (∃ k i, k ∈ [("arg", VStr "b")].*1 ∧
          field_index Spec.AnnotationSpecification k = Some i ∧
          i < length [VStr "a"] ∧
          TypeError (MultipleValues "arg") = TypeError (MultipleValues k)) ∨
  ("_cls" ∈ [("arg", VStr "b")].*1 ∧
   TypeError (MultipleValues "arg") = TypeError (MultipleValues "_cls")) ∨
  (length (cls_fields Spec.AnnotationSpecification) < length [VStr "a"] ∧
   TypeError (MultipleValues "arg") = TypeError TooManyPositional) ∨
  (Spec.AnnotationSpecification = Spec.DecoratorAnnotationSpecification ∧
   [VStr "a"] = [] ∧
   ("decorator" ∉ [("arg", VStr "b")].*1) ∧
   TypeError (MultipleValues "arg") = TypeError (MissingArguments ["decorator"])).
Proof.
  apply (construct_errors Spec.AnnotationSpecification [VStr "a"] [("arg", VStr "b")]).
  - unfold Spec.classes. apply list_elem_of_here.
  - simpl. apply NoDup_cons. split; [apply not_elem_of_nil | apply NoDup_nil_2].
  - reflexivity.
Defined.

Lemma kw_lookup_Permutation k kwargs kwargs' :
  NoDup kwargs.*1 → kwargs ≡ₚ kwargs' →
  kw_lookup k kwargs = kw_lookup k kwargs'.
Proof.
  intros Hnd Hperm.
  assert (NoDup kwargs'.*1) as Hnd' by (by rewrite <- Hperm).
  destruct (kw_lookup k kwargs) as [v|] eqn:E.
  - apply kw_lookup_Some_elem in E. rewrite Hperm in E.
    symmetry. by apply kw_lookup_elem.
  - symmetry. apply kw_lookup_None. apply kw_lookup_None in E.
    by rewrite <- Hperm.
Qed.

(** The items of a constructed instance, position by position. *)
Lemma construct_items cls args kwargs o i f k :
  construct cls args kwargs = Ok o →
  cls_fields cls !! i = Some f → field_index cls k = Some i →
  inst_items o !! i =
    Some (match kw_lookup k kwargs with
          | Some v => v
          | None => match args !! i with
                    | Some a => a
                    | None => default VNone (f_default f)
                    end
          end).
Proof.
  intros Ho Hf Hi.
  destruct (construct_getattr cls args kwargs o k i Ho Hi) as (f' & Hf' & _ & Hitem & _).
  rewrite Hf in Hf'. injection Hf' as <-. exact Hitem.
Qed.

Lemma instance_eq cls o o' :
  instance_of cls o → instance_of cls o' →
  (∀ i, i < length (cls_fields cls) → inst_items o !! i = inst_items o' !! i) →
  o = o'.
Proof.
  destruct o as [c xs], o' as [c' ys]. intros [Hc Hl] [Hc' Hl'] Hall.
  simpl in *. subst. f_equal. apply list_eq. intros i.
  destruct (decide (i < length (cls_fields cls))) as [Hlt|Hge]; [by apply Hall|].
  rewrite !lookup_ge_None_2; [done|lia..].
Qed.

(** X3.  The order of the keywords does not matter: a call that
    succeeds yields the same instance under any reordering of its
    keyword arguments. *)
Theorem construct_keyword_order cls args kwargs kwargs' o :
  cls ∈ Spec.classes →
  kwargs ≡ₚ kwargs' →
  construct cls args kwargs = Ok o →
  construct cls args kwargs' = Ok o.
Proof.
  intros Hcls Hperm Ho.
  pose proof (classes_NoDup cls Hcls) as Hnames.
  pose proof (construct_Ok_conditions _ _ _ _ Ho) as (Hlen & Hnd & Hkeys & Hreq).
  specialize (Hreq Hnames).
  destruct (construct_succeeds cls args kwargs' (classes_cls_free cls Hcls))
    as [o' Ho']; try done.
  - by rewrite <- Hperm.
  - intros k Hk. apply Hkeys. by rewrite Hperm.
  - intros i f Hf Hd. destruct (Hreq i f Hf Hd) as [?|Hin]; [by left|right].
    by rewrite <- Hperm.
  - rewrite Ho'. f_equal.
    apply (instance_eq cls); [by eapply construct_instance_of..|].
    intros i Hi.
    destruct (lookup_lt_is_Some_2 (cls_fields cls) i Hi) as [f Hf].
    pose proof (field_index_of_field cls i f Hnames Hf) as Hidx.
    rewrite (construct_items _ _ _ _ _ _ _ Ho Hf Hidx),
            (construct_items _ _ _ _ _ _ _ Ho' Hf Hidx).
    by rewrite (kw_lookup_Permutation _ _ _ Hnd Hperm).
Qed.

(** X3 at [DecoratorAnnotationSpecification] called with
    [return_annotation] before [decorator]. *)
Lemma construct_keyword_order_example :
  construct Spec.DecoratorAnnotationSpecification []
    [("decorator", VStr "property"); ("return_annotation", VStr "T")]
  = Ok (Instance (Some Spec.DecoratorAnnotationSpecification)
          [VStr "property"; VNone; VNone; VNone; VStr "T"; VNone; VNone]).
Proof.
  apply (construct_keyword_order Spec.DecoratorAnnotationSpecification []
           [("return_annotation", VStr "T"); ("decorator", VStr "property")]).
  - unfold Spec.classes.
    apply list_elem_of_further, list_elem_of_further, list_elem_of_here.
  - apply perm_swap.
  - reflexivity.
Defined.

(** ** Positional calls *)

Lemma kw_lookup_zip names : ∀ (args : list value) i k,
  NoDup names → names !! i = Some k →
  kw_lookup k (zip names args) = args !! i.
Proof.
  induction names as [|n0 ns IH]; intros args i k Hnd Hi; [done|].
  apply NoDup_cons in Hnd as [Hfresh Hnd].
  destruct args as [|a rest]; [done|]. simpl.
  destruct (String.eqb_spec k n0) as [->|Hne].
  - destruct i as [|i]; [done|]. simpl in Hi.
    exfalso. apply Hfresh. by eapply list_elem_of_lookup_2.
  - destruct i as [|i]; simpl in Hi; [congruence|]. simpl. by apply IH.
Qed.

Lemma zip_keys (names : list string) (args : list value) :
  (zip names args).*1 = take (length args) names.
Proof.
  revert args. induction names as [|n0 ns IH]; intros [|a rest]; simpl; try done.
  by rewrite IH.
Qed.

Lemma required_positional cls (args : list value) :
  cls ∈ Spec.classes →
  (cls = Spec.DecoratorAnnotationSpecification → args ≠ []) →
  ∀ i f, cls_fields cls !! i = Some f → f_default f = None → i < length args.
Proof.
  intros Hcls Hreq i f Hf Hd.
  pose proof (list_elem_of_lookup_2 _ _ _ Hf) as Hin.
  destruct (classes_defaults cls f Hcls Hin) as [?|(-> & _ & _)]; [congruence|].
  rewrite (decorator_at_0 i f Hf Hd).
  specialize (Hreq eq_refl). destruct args; [done|simpl; lia].
Qed.

Lemma positional_call cls args :
  cls ∈ Spec.classes →
  length args ≤ length (cls_fields cls) →
  (cls = Spec.DecoratorAnnotationSpecification → args ≠ []) →
  construct cls args []
  = Ok (Instance (Some cls)
          (args ++ replicate (length (cls_fields cls) - length args) VNone)).
Proof.
  intros Hcls Hlen Hreq.
  pose proof (classes_NoDup cls Hcls) as Hnames.
  destruct (construct_succeeds cls args [] (classes_cls_free cls Hcls))
    as [o Ho]; try done.
  { apply NoDup_nil_2. }
  { intros k Hk. by apply elem_of_nil in Hk. }
  { intros i f Hf Hd. left. by eapply required_positional. }
  rewrite Ho. f_equal.
  apply (instance_eq cls); [by eapply construct_instance_of| |].
  - split; [done|]. simpl. rewrite length_app, length_replicate. lia.
  - intros i Hi.
    destruct (lookup_lt_is_Some_2 (cls_fields cls) i Hi) as [f Hf].
    pose proof (field_index_of_field cls i f Hnames Hf) as Hidx.
    rewrite (construct_items _ _ _ _ _ _ _ Ho Hf Hidx). simpl.
    destruct (args !! i) as [a|] eqn:Ea.
    + by rewrite (lookup_app_l_Some _ _ _ _ Ea).
    + apply lookup_ge_None in Ea.
      rewrite lookup_app_r by done.
      rewrite lookup_replicate_2 by lia.
      pose proof (list_elem_of_lookup_2 _ _ _ Hf) as Hin.
      by destruct (classes_defaults cls f Hcls Hin) as [->|(_ & _ & ->)].
Qed.

Lemma keyword_call_of_positional cls args :
  cls ∈ Spec.classes →
  length args ≤ length (cls_fields cls) →
  (cls = Spec.DecoratorAnnotationSpecification → args ≠ []) →
  construct cls [] (zip (field_names cls) args) = construct cls args [].
Proof.
  intros Hcls Hlen Hreq.
  pose proof (classes_NoDup cls Hcls) as Hnames.
  pose proof (positional_call cls args Hcls Hlen Hreq) as Ho.
  destruct (construct_succeeds cls [] (zip (field_names cls) args)
              (classes_cls_free cls Hcls)) as [o' Ho']; try done.
  { simpl. lia. }
  { rewrite zip_keys. eapply sublist_NoDup; [done|apply sublist_take]. }
  { intros k Hk. rewrite zip_keys in Hk.
    destruct (index_of_elem k (field_names cls)) as [i Hi].
    { by eapply subseteq_take. }
    exists i. split; [done|simpl; lia]. }
  { intros i f Hf Hd. right. rewrite zip_keys.
    apply list_elem_of_lookup. exists i.
    rewrite lookup_take_lt by (by eapply required_positional).
    unfold field_names. by rewrite list_lookup_fmap, Hf. }
  rewrite Ho, Ho'. f_equal.
  apply (instance_eq cls); [by eapply construct_instance_of..|].
  intros i Hi.
  destruct (lookup_lt_is_Some_2 (cls_fields cls) i Hi) as [f Hf].
  pose proof (field_index_of_field cls i f Hnames Hf) as Hidx.
  rewrite (construct_items _ _ _ _ _ _ _ Ho Hf Hidx),
          (construct_items _ _ _ _ _ _ _ Ho' Hf Hidx).
  rewrite (kw_lookup_zip _ args i (f_name f) Hnames (index_of_Some _ _ _ Hidx)).
  simpl. by destruct (args !! i).
Qed.

(** X4.  Positional calls.  Passing the leading fields positionally
    (at least [decorator] where it is required, at most as many as
    there are fields) yields the arguments followed by [None] for every
    remaining field, and it is the same instance as the one obtained by
    passing those arguments under their field names. *)
Theorem construct_positional_defaults cls args :
  cls ∈ Spec.classes →
  length args ≤ length (cls_fields cls) →
  (cls = Spec.DecoratorAnnotationSpecification → args ≠ []) →
  construct cls args []
  = Ok (Instance (Some cls)
          (args ++ replicate (length (cls_fields cls) - length args) VNone)) ∧
  construct cls [] (zip (field_names cls) args) = construct cls args [].
Proof.
  intros Hcls Hlen Hreq. split.
  - by apply positional_call.
  - by apply keyword_call_of_positional.
Qed.

(** X4 at [AnnotationSpecification("a", "b")]. *)
Lemma construct_positional_defaults_example :
  construct Spec.AnnotationSpecification [VStr "a"; VStr "b"] []
  = Ok (Instance (Some Spec.AnnotationSpecification)
          ([VStr "a"; VStr "b"] ++
           replicate (length (cls_fields Spec.AnnotationSpecification)
                      - length [VStr "a"; VStr "b"]) VNone)) ∧
  construct Spec.AnnotationSpecification []
    (zip (field_names Spec.AnnotationSpecification) [VStr "a"; VStr "b"])
  = construct Spec.AnnotationSpecification [VStr "a"; VStr "b"] [].
Proof.
  apply (construct_positional_defaults Spec.AnnotationSpecification
           [VStr "a"; VStr "b"]).
  - unfold Spec.classes. apply list_elem_of_here.
  - simpl. lia.
  - intros H. discriminate H.
Defined.

(** ** Reading out of range *)

(** X5.  Index bounds.  On an instance of a class with [n] fields,
    [o[i]] is defined exactly for [-n <= i < n]; any other index raises
    [IndexError]; and a negative index in range reads the item at
    [i + n]. *)
Theorem getitem_bounds cls o i :
  instance_of cls o →
  (is_ok (getitem o i) = true ↔
     (- Z.of_nat (length (cls_fields cls)) ≤ i < Z.of_nat (length (cls_fields cls)))%Z) ∧
  (is_ok (getitem o i) = false → getitem o i = Err IndexError) ∧
  ((- Z.of_nat (length (cls_fields cls)) ≤ i < 0)%Z →
     getitem o i = getitem o (i + Z.of_nat (length (cls_fields cls)))).
Proof.
  intros [_ Hlen]. unfold getitem. rewrite Hlen.
  set (n := Z.of_nat (length (cls_fields cls))).
  assert (∀ j, (0 ≤ j < n)%Z → is_Some (inst_items o !! Z.to_nat j)) as Hin.
  { intros j Hj. apply lookup_lt_is_Some_2. rewrite Hlen. lia. }
  split_and!.
  - destruct (Z.ltb_spec i 0) as [Hneg|Hpos].
    + destruct (Z.leb_spec 0 (i + n)) as [H1|H1];
        destruct (Z.ltb_spec (i + n) n) as [H2|H2]; simpl;
        try (split; [done|lia]).
      destruct (Hin (i + n)%Z) as [v ->]; [lia|]. simpl. split; [lia|done].
    + destruct (Z.leb_spec 0 i) as [H1|H1];
        destruct (Z.ltb_spec i n) as [H2|H2]; simpl;
        try (split; [done|lia]).
      destruct (Hin i) as [v ->]; [lia|]. simpl. split; [lia|done].
  - destruct (if (i <? 0)%Z then _ else _) as [|j|j] eqn:Ej;
      destruct (_ && _); try done;
      by destruct (inst_items o !! _).
  - intros Hneg.
    destruct (Z.ltb_spec i 0) as [_|?]; [|lia].
    destruct (Z.ltb_spec (i + n) 0) as [?|_]; [lia|]. done.
Qed.

(** X5 at index [-1] of a [WhitelistSpecification]. *)
Lemma getitem_bounds_example :
  (is_ok (getitem (Instance (Some Spec.WhitelistSpecification) [VNone; VStr "x"]) (-1)) = true ↔
     (- Z.of_nat (length (cls_fields Spec.WhitelistSpecification)) ≤ -1
      < Z.of_nat (length (cls_fields Spec.WhitelistSpecification)))%Z) ∧
  (is_ok (getitem (Instance (Some Spec.WhitelistSpecification) [VNone; VStr "x"]) (-1)) = false →
     getitem (Instance (Some Spec.WhitelistSpecification) [VNone; VStr "x"]) (-1)
     = Err IndexError) ∧
  ((- Z.of_nat (length (cls_fields Spec.WhitelistSpecification)) ≤ -1 < 0)%Z →
     getitem (Instance (Some Spec.WhitelistSpecification) [VNone; VStr "x"]) (-1)
     = getitem (Instance (Some Spec.WhitelistSpecification) [VNone; VStr "x"])
         (-1 + Z.of_nat (length (cls_fields Spec.WhitelistSpecification)))).
Proof.
  apply (getitem_bounds Spec.WhitelistSpecification
           (Instance (Some Spec.WhitelistSpecification) [VNone; VStr "x"]) (-1)).
  split; reflexivity.
Defined.

(** ** Equality across classes and over time *)

Lemma classes_arity c1 c2 :
  c1 ∈ Spec.classes → c2 ∈ Spec.classes → c1 ≠ c2 →
  length (cls_fields c1) ≠ length (cls_fields c2).
Proof.
  intros H1 H2 Hne. revert c1 H1 Hne. pattern c2. revert c2 H2.
  apply classes_cases; intros c1 H1; pattern c1; revert c1 H1;
    apply classes_cases; intros Hne; done.
Qed.

(** X7.  Instances of two different classes among the three never
    compare equal, although equality ignores the class: the classes
    have 4, 2 and 7 fields, and tuples of different length differ. *)
Theorem distinct_classes_unequal st c1 c2 x y :
  c1 ∈ Spec.classes → c2 ∈ Spec.classes → c1 ≠ c2 →
  instance_of c1 x → instance_of c2 y →
  tuple_eq st x y = false.
Proof.
  intros H1 H2 Hne [_ Hx] [_ Hy].
  apply not_true_iff_false. unfold tuple_eq. intros [Hlen _]%items_eq_spec.
  apply (classes_arity c1 c2 H1 H2 Hne). congruence.
Qed.

(** X7 at an all-default [AnnotationSpecification] against an
    all-default [WhitelistSpecification]. *)
Lemma distinct_classes_unequal_example :
  tuple_eq empty_store
    (Instance (Some Spec.AnnotationSpecification) [VNone; VNone; VNone; VNone])
    (Instance (Some Spec.WhitelistSpecification) [VNone; VNone]) = false.
Proof.
  apply (distinct_classes_unequal empty_store
           Spec.AnnotationSpecification Spec.WhitelistSpecification).
  - unfold Spec.classes. apply list_elem_of_here.
  - unfold Spec.classes. apply list_elem_of_further, list_elem_of_here.
  - intros H. discriminate H.
  - split; reflexivity.
  - split; reflexivity.
Defined.

Lemma py_eq_sym st a b : py_eq st a b = py_eq st b a.
Proof.
  unfold py_eq.
  destruct (decide (a = b)) as [->|Hab]; [by rewrite decide_True|].
  rewrite (decide_False (P := b = a)) by congruence.
  destruct a as [|s1|l1], b as [|s2|l2]; try done.
  destruct (sets st !! l1), (sets st !! l2); try done.
  apply bool_decide_ext. split; congruence.
Qed.

Lemma py_eq_trans st a b c :
  py_eq st a b = true → py_eq st b c = true → py_eq st a c = true.
Proof.
  unfold py_eq.
  destruct (decide (a = b)) as [->|Hab]; [done|].
  destruct (decide (b = c)) as [->|Hbc]; [by rewrite (decide_False (P := a = c))|].
  destruct (decide (a = c)) as [->|Hac]; [done|].
  destruct a as [|s1|l1], b as [|s2|l2], c as [|s3|l3]; try done.
  destruct (sets st !! l1), (sets st !! l2), (sets st !! l3); try done.
  rewrite !bool_decide_eq_true. congruence.
Qed.

Lemma items_eq_sym st xs : ∀ ys, items_eq st xs ys = items_eq st ys xs.
Proof.
  induction xs as [|x xs IH]; intros [|y ys]; simpl; try done.
  by rewrite py_eq_sym, IH.
Qed.

Lemma items_eq_trans st xs : ∀ ys zs,
  items_eq st xs ys = true → items_eq st ys zs = true → items_eq st xs zs = true.
Proof.
  induction xs as [|x xs IH]; intros [|y ys] [|z zs]; simpl; try done.
  rewrite !andb_true_iff. intros [Hxy Hr1] [Hyz Hr2]. split.
  - by eapply py_eq_trans.
  - by eapply IH.
Qed.

(** X8.  In a given store, equality of the records is an equivalence:
    reflexive, symmetric and transitive. *)
Theorem tuple_eq_equivalence st a b c :
  tuple_eq st a a = true ∧
  tuple_eq st a b = tuple_eq st b a ∧
  (tuple_eq st a b = true → tuple_eq st b c = true → tuple_eq st a c = true).
Proof.
  unfold tuple_eq. split_and!.
  - apply items_eq_Forall2, Forall2_same_length_lookup. split; [done|].
    intros i x y Hx Hy. rewrite Hx in Hy. injection Hy as <-. apply py_eq_refl.
  - apply items_eq_sym.
  - apply items_eq_trans.
Qed.

(** X9.  Equality is not stable over time.  If two records hold, in
    the same position, two different set objects with the same
    contents, then adding a new element to one of the sets succeeds,
    touches no tuple object, and leaves the two records unequal; so
    records that compared equal before no longer do. *)
Theorem equality_not_stable st x y i l1 l2 s e :
  inst_items x !! i = Some (VSet l1) →
  inst_items y !! i = Some (VSet l2) →
  l1 ≠ l2 →
  sets st !! l1 = Some s → sets st !! l2 = Some s →
  e ∉ s →
  ∃ st', exec (SetAdd l1 e) st = Ok st' ∧
         objs st' = objs st ∧
         tuple_eq st' x y = false ∧
         (tuple_eq st x y = true → tuple_eq st' x y ≠ tuple_eq st x y).
Proof.
  intros Hx Hy Hne H1 H2 He.
  assert (tuple_eq (Store (<[l1 := {[e]} ∪ s]> (sets st)) (objs st)) x y = false)
    as Hfalse.
  { apply not_true_iff_false. unfold tuple_eq. intros [_ Hall]%items_eq_spec.
    specialize (Hall i _ _ Hx Hy). unfold py_eq in Hall.
    rewrite decide_False in Hall by congruence. simpl in Hall.
    rewrite lookup_insert_eq, lookup_insert_ne, H2 in Hall by done.
    apply bool_decide_eq_true in Hall. apply He. rewrite <- Hall.
    by apply elem_of_union_l, elem_of_singleton. }
  eexists. split_and!.
  - simpl. unfold update_set. rewrite H1. reflexivity.
  - done.
  - exact Hfalse.
  - intros Htrue. rewrite Hfalse, Htrue. done.
Qed.

(** X9 at two [WhitelistSpecification]s over two copies of [{"int"}],
    one of which then receives ["str"]. *)
Lemma equality_not_stable_example :
  ∃ st', exec (SetAdd 1%positive "str")
           (Store (<[1%positive := {["int"]}]> (<[2%positive := {["int"]}]> ∅)) ∅)
         = Ok st' ∧
         objs st' = objs (Store (<[1%positive := {["int"]}]> (<[2%positive := {["int"]}]> ∅)) ∅) ∧
         tuple_eq st'
           (Instance (Some Spec.WhitelistSpecification) [VSet 1%positive; VNone])
           (Instance (Some Spec.WhitelistSpecification) [VSet 2%positive; VNone])
         = false ∧
         (tuple_eq (Store (<[1%positive := {["int"]}]> (<[2%positive := {["int"]}]> ∅)) ∅)
            (Instance (Some Spec.WhitelistSpecification) [VSet 1%positive; VNone])
            (Instance (Some Spec.WhitelistSpecification) [VSet 2%positive; VNone])
          = true →
          tuple_eq st'
            (Instance (Some Spec.WhitelistSpecification) [VSet 1%positive; VNone])
            (Instance (Some Spec.WhitelistSpecification) [VSet 2%positive; VNone])
          ≠ tuple_eq (Store (<[1%positive := {["int"]}]> (<[2%positive := {["int"]}]> ∅)) ∅)
              (Instance (Some Spec.WhitelistSpecification) [VSet 1%positive; VNone])
              (Instance (Some Spec.WhitelistSpecification) [VSet 2%positive; VNone])).
Proof.
  apply (equality_not_stable
           (Store (<[1%positive := {["int"]}]> (<[2%positive := {["int"]}]> ∅)) ∅)
           _ _ 0 1%positive 2%positive {["int"]} "str").
  - reflexivity.
  - reflexivity.
  - intros H. discriminate H.
  - simpl. apply lookup_insert_eq.
  - simpl. rewrite lookup_insert_ne by (intros H; discriminate H).
    apply lookup_insert_eq.
  - intros Hin. apply elem_of_singleton in Hin. discriminate Hin.
Defined.

(** X8 at three [WhitelistSpecification]s over three copies of one
    set. *)
Lemma tuple_eq_equivalence_example :
  tuple_eq (Store (<[1%positive := ∅]> (<[2%positive := ∅]> ∅)) ∅)
    (Instance (Some Spec.WhitelistSpecification) [VSet 1%positive; VNone])
    (Instance (Some Spec.WhitelistSpecification) [VSet 1%positive; VNone]) = true ∧
  tuple_eq (Store (<[1%positive := ∅]> (<[2%positive := ∅]> ∅)) ∅)
    (Instance (Some Spec.WhitelistSpecification) [VSet 1%positive; VNone])
    (Instance (Some Spec.WhitelistSpecification) [VSet 2%positive; VNone])
  = tuple_eq (Store (<[1%positive := ∅]> (<[2%positive := ∅]> ∅)) ∅)
      (Instance (Some Spec.WhitelistSpecification) [VSet 2%positive; VNone])
      (Instance (Some Spec.WhitelistSpecification) [VSet 1%positive; VNone]) ∧
  (tuple_eq (Store (<[1%positive := ∅]> (<[2%positive := ∅]> ∅)) ∅)
     (Instance (Some Spec.WhitelistSpecification) [VSet 1%positive; VNone])
     (Instance (Some Spec.WhitelistSpecification) [VSet 2%positive; VNone]) = true →
   tuple_eq (Store (<[1%positive := ∅]> (<[2%positive := ∅]> ∅)) ∅)
     (Instance (Some Spec.WhitelistSpecification) [VSet 2%positive; VNone])
     (Instance None [VSet 2%positive; VNone]) = true →
   tuple_eq (Store (<[1%positive := ∅]> (<[2%positive := ∅]> ∅)) ∅)
     (Instance (Some Spec.WhitelistSpecification) [VSet 1%positive; VNone])
     (Instance None [VSet 2%positive; VNone]) = true).
Proof.
  apply (tuple_eq_equivalence (Store (<[1%positive := ∅]> (<[2%positive := ∅]> ∅)) ∅)).
Defined.

(** ** [_replace] *)

Lemma first_duplicate_None ks :
  first_duplicate ks = None ↔ NoDup ks.
Proof.
  induction ks as [|k rest IH]; simpl.
  - split; [intros _; apply NoDup_nil_2|done].
  - rewrite NoDup_cons, <- IH.
    destruct (index_of k rest) as [i|] eqn:E.
    + split; [done|]. intros [Hout _]. apply index_of_None in Hout. congruence.
    + apply index_of_None in E. tauto.
Qed.

Lemma first_unknown_None names ks :
  first_unknown names ks = None ↔ ∀ k, k ∈ ks → k ∈ names.
Proof.
  induction ks as [|k rest IH]; simpl.
  - split; [|done]. intros _ k Hk. by apply elem_of_nil in Hk.
  - destruct (index_of k names) as [i|] eqn:E.
    + rewrite IH. split.
      * intros Hall k' [->|Hk']%elem_of_cons; [|by apply Hall].
        apply index_of_Some in E. by eapply list_elem_of_lookup_2.
      * intros Hall k' Hk'. by apply Hall, list_elem_of_further.
    + split; [done|]. intros Hall. apply index_of_None in E.
      exfalso. apply E, Hall, list_elem_of_here.
Qed.

(** X10.  [_replace] on an instance of one of the three classes, with
    distinct keywords.  If every keyword is a field name, the result is
    an instance of the same class in which each named field holds the
    new value and every other field the old one; with no keywords it is
    the instance itself.  If some keyword is no field name, the call
    raises [ValueError]. *)
Theorem replace_fields cls o kwargs :
  cls ∈ Spec.classes →
  instance_of cls o →
  NoDup kwargs.*1 →
  ((∀ k, k ∈ kwargs.*1 → k ∈ field_names cls) →
     ∃ o', replace o kwargs = Ok o' ∧ instance_of cls o' ∧
       (∀ k v, (k, v) ∈ kwargs → getattr o' k = Ok v) ∧
       (∀ k, k ∈ field_names cls → k ∉ kwargs.*1 → getattr o' k = getattr o k) ∧
       (kwargs = [] → o' = o)) ∧
  ((∃ k, k ∈ kwargs.*1 ∧ k ∉ field_names cls) →
     replace o kwargs = Err ValueError).
Proof.
  intros Hcls Ho Hnd. pose proof Ho as [Hc Hlen].
  unfold replace. rewrite Hc, (proj2 (first_duplicate_None _) Hnd).
  split.
  - intros Hknown. rewrite (proj2 (first_unknown_None _ _) Hknown).
    set (items := zip_with (λ name old, default old (kw_lookup name kwargs))
                    (field_names cls) (inst_items o)).
    assert (length items = length (cls_fields cls)) as Hitems.
    { unfold items, field_names. rewrite length_zip_with, length_fmap. lia. }
    rewrite decide_True by done.
    assert (∀ k i, field_index cls k = Some i →
              ∃ old, inst_items o !! i = Some old ∧
                     getattr o k = Ok old ∧
                     getattr (Instance (Some cls) items) k
                     = Ok (default old (kw_lookup k kwargs))) as Hfield.
    { intros k i Hi.
      destruct (getattr_instance cls o k i Ho Hi) as (old & Hold & Hget).
      exists old. split; [done|]. split; [done|].
      unfold getattr. simpl. rewrite Hi. unfold items.
      by rewrite lookup_zip_with, (index_of_Some _ _ _ Hi), Hold. }
    eexists. split; [reflexivity|]. split; [by split|]. split_and!.
    + intros k v Hkv.
      destruct (index_of_elem k (field_names cls)) as [i Hi].
      { apply Hknown, list_elem_of_fmap. by exists (k, v). }
      destruct (Hfield k i Hi) as (old & _ & _ & ->).
      by rewrite (kw_lookup_elem k v kwargs Hnd Hkv).
    + intros k Hk Hout.
      destruct (index_of_elem k (field_names cls) Hk) as [i Hi].
      destruct (Hfield k i Hi) as (old & _ & -> & ->).
      by rewrite (proj2 (kw_lookup_None k kwargs) Hout).
    + intros ->. apply (instance_eq cls); [by split|done|].
      intros i Hi. simpl.
      destruct (lookup_lt_is_Some_2 (cls_fields cls) i Hi) as [f Hf].
      pose proof (field_index_of_field cls i f (classes_NoDup cls Hcls) Hf) as Hidx.
      destruct (getattr_instance cls o _ i Ho Hidx) as (old & Hold & _).
      unfold items.
      by rewrite lookup_zip_with, (index_of_Some _ _ _ Hidx), Hold.
  - intros (k & Hk & Hout).
    destruct (first_unknown (field_names cls) kwargs.*1) as [u|] eqn:Eu; [done|].
    exfalso. apply Hout. by apply (proj1 (first_unknown_None _ _) Eu).
Qed.

(** X10 at [_replace(return_annotation="T")] on a
    [DecoratorAnnotationSpecification]. *)
Lemma replace_fields_example :
  ((∀ k, k ∈ [("return_annotation", VStr "T")].*1 →
         k ∈ field_names Spec.DecoratorAnnotationSpecification) →
     ∃ o', replace (Instance (Some Spec.DecoratorAnnotationSpecification)
                      [VStr "property"; VNone; VNone; VNone; VNone; VNone; VNone])
             [("return_annotation", VStr "T")] = Ok o' ∧
       instance_of Spec.DecoratorAnnotationSpecification o' ∧
       (∀ k v, (k, v) ∈ [("return_annotation", VStr "T")] → getattr o' k = Ok v) ∧
       (∀ k, k ∈ field_names Spec.DecoratorAnnotationSpecification →
             k ∉ [("return_annotation", VStr "T")].*1 →
             getattr o' k
             = getattr (Instance (Some Spec.DecoratorAnnotationSpecification)
                          [VStr "property"; VNone; VNone; VNone; VNone; VNone; VNone]) k) ∧
       ([("return_annotation", VStr "T")] = [] →
        o' = Instance (Some Spec.DecoratorAnnotationSpecification)
               [VStr "property"; VNone; VNone; VNone; VNone; VNone; VNone])) ∧
  ((∃ k, k ∈ [("return_annotation", VStr "T")].*1 ∧
         k ∉ field_names Spec.DecoratorAnnotationSpecification) →
     replace (Instance (Some Spec.DecoratorAnnotationSpecification)
                [VStr "property"; VNone; VNone; VNone; VNone; VNone; VNone])
       [("return_annotation", VStr "T")] = Err ValueError).
Proof.
  apply (replace_fields Spec.DecoratorAnnotationSpecification
           (Instance (Some Spec.DecoratorAnnotationSpecification)
              [VStr "property"; VNone; VNone; VNone; VNone; VNone; VNone])
           [("return_annotation", VStr "T")]).
  - unfold Spec.classes.
    apply list_elem_of_further, list_elem_of_further, list_elem_of_here.
  - split; reflexivity.
  - simpl. apply NoDup_cons. split; [apply not_elem_of_nil | apply NoDup_nil_2].
Defined.

(** ** Rebuilding an instance from its own contents *)

(** X11.  Round trip through the contents.  For an instance [o] of one
    of the three classes, calling the class on the items of [o]
    positionally gives [o] back, and so does calling it on the
    keywords of [o._asdict()]. *)
Theorem rebuild_roundtrip cls o :
  cls ∈ Spec.classes →
  instance_of cls o →
  construct cls (inst_items o) [] = Ok o ∧
  ∃ d, asdict o = Ok d ∧ construct cls [] d = Ok o.
Proof.
  intros Hcls Ho. pose proof Ho as [Hc Hlen].
  assert (cls = Spec.DecoratorAnnotationSpecification → inst_items o ≠ []) as Hreq.
  { intros -> Hnil. rewrite Hnil in Hlen. discriminate Hlen. }
  assert (construct cls (inst_items o) [] = Ok o) as Hpos.
  { rewrite positional_call by (done || lia).
    rewrite Hlen, Nat.sub_diag. simpl. rewrite app_nil_r.
    destruct o as [c items]. simpl in *. by subst. }
  split; [done|].
  exists (zip (field_names cls) (inst_items o)). split.
  - unfold asdict. by rewrite Hc.
  - rewrite keyword_call_of_positional by (done || lia). exact Hpos.
Qed.

(** X11 at [WhitelistSpecification(None, s)]. *)
Lemma rebuild_roundtrip_example :
  construct Spec.WhitelistSpecification
    (inst_items (Instance (Some Spec.WhitelistSpecification) [VNone; VSet 1%positive])) []
  = Ok (Instance (Some Spec.WhitelistSpecification) [VNone; VSet 1%positive]) ∧
  ∃ d, asdict (Instance (Some Spec.WhitelistSpecification) [VNone; VSet 1%positive]) = Ok d ∧
       construct Spec.WhitelistSpecification [] d
       = Ok (Instance (Some Spec.WhitelistSpecification) [VNone; VSet 1%positive]).
Proof.
  apply (rebuild_roundtrip Spec.WhitelistSpecification
           (Instance (Some Spec.WhitelistSpecification) [VNone; VSet 1%positive])).
  - unfold Spec.classes. apply list_elem_of_further, list_elem_of_here.
  - split; reflexivity.
Defined.
